(** * dupl: the driver of the clone detector (main.go)

    A shallow embedding of the driver: the options and the control flow of
    [main], the path filter of [findDuplicates], the file crawl of
    [crawlPaths], the grouping and printing of [printDupls] and the
    per-group deduplication of [unique].

    Go values are modelled as follows: [int] is a 64-bit integer carried by
    [Z] with its wrap-around written out, [string] is a byte string, a slice
    is a [list], a [map[K]V] is a [gmap K V] and a [map[K]struct{}] a
    [gset K].  A channel that is drained by a single [range] loop is the
    list of the values received before it is closed.  A run-time panic and a
    call to [log.Fatal] are explicit results. *)

From Stdlib Require Import ZArith String Ascii List Permutation Sorted Lia.
From stdpp Require Import base option list gmap strings sorting.

Local Open Scope string_scope.
Local Open Scope list_scope.
Local Open Scope Z_scope.

(** ** Data of the [syntax] package used by the driver *)

Module syntax.

(** [syntax.Node]: one element of the linearised token stream. *)
Record Node : Set := mkNode {
  Type' : Z;
  Filename : string;
  Pos : Z;
  End' : Z;
  Owns : Z
}.

(** [syntax.Match]: a clone group, keyed by the hash of its token kinds. *)
Record Match : Set := mkMatch {
  Hash : string;
  Frags : list (list Node)
}.

End syntax.
Export syntax.

Global Instance Node_eq_dec : EqDecision Node.
Proof. solve_decision. Defined.

Global Instance Match_eq_dec : EqDecision Match.
Proof. solve_decision. Defined.

(** A fragment is a slice of nodes, a group a slice of fragments. *)
Abbreviation Frag := (list Node).
Abbreviation Group := (list (list Node)).

(** ** [unique] *)

(** The starting point of a fragment: file name and position of [seq[0]]. *)
Definition frag_key (seq : Frag) : option (string * Z) :=
  match seq with
  | [] => None
  | node :: _ => Some (Filename node, Pos node)
  end.

(** One iteration of the loop of [unique].  [seq[0]] panics on an empty
    fragment, which is [None] here.  The inner map [file] is a Go map, hence
    shared with [fileMap]: adding a position to it is an update of
    [fileMap] at the file name. *)
Definition unique_step (st : gmap string (gset Z) * Group) (seq : Frag)
  : option (gmap string (gset Z) * Group) :=
  let '(fileMap, newGroup) := st in
  match seq with
  | [] => None
  | node :: _ =>
    let '(file, fileMap) :=
      match fileMap !! Filename node with
      | Some file => (file, fileMap)
      | None => (∅, <[Filename node := ∅]> fileMap)
      end in
    if decide (Pos node ∈ file)
    then Some (fileMap, newGroup)
    else Some (<[Filename node := {[Pos node]} ∪ file]> fileMap, newGroup ++ [seq])
  end.

Fixpoint unique_loop (st : gmap string (gset Z) * Group) (group : Group)
  : option (gmap string (gset Z) * Group) :=
  match group with
  | [] => Some st
  | seq :: rest =>
    match unique_step st seq with
    | Some st' => unique_loop st' rest
    | None => None
    end
  end.

Definition unique (group : Group) : option Group :=
  snd <$> unique_loop (∅, []) group.

(** The deduplication in the words of the specification: going through the
    group in order, a fragment is kept unless a fragment with the same
    (file name, starting position) pair came before it. *)
Fixpoint keep_first (seen : list (string * Z)) (group : Group) : Group :=
  match group with
  | [] => []
  | seq :: rest =>
    match frag_key seq with
    | Some k =>
      if decide (k ∈ seen) then keep_first seen rest
      else seq :: keep_first (k :: seen) rest
    | None => keep_first seen rest
    end
  end.

(** The pairs recorded in the two-level map. *)
Definition recorded (fileMap : gmap string (gset Z)) (k : string * Z) : Prop :=
  ∃ file, fileMap !! k.1 = Some file ∧ k.2 ∈ file.

(** ** Strings (package [strings]) *)

(** [strings.HasPrefix(s, prefix)]. *)
Definition HasPrefix (s prefix : string) : bool := String.prefix prefix s.

(** [strings.HasSuffix(s, suffix)]. *)
Definition HasSuffix (s suffix : string) : bool :=
  String.prefix (String.rev suffix) (String.rev s).

(** [strings.Contains(s, substr)]. *)
Fixpoint Contains (s substr : string) : bool :=
  HasPrefix s substr ||
  match s with
  | EmptyString => false
  | String _ s' => Contains s' substr
  end.

(** ** Iteration over a Go map

    The order in which [range] visits the keys of a map is unspecified and
    differs from one execution of the statement to the next.  Each execution
    of a [range] statement is given its own order: a function that arranges
    the keys of the map. *)
Abbreviation RangeOrder := (list string → list string).

Definition is_iteration (o : RangeOrder) : Prop := ∀ keys, o keys ≡ₚ keys.

(** ** [findDuplicates] *)

(** The body of the innermost loop of [matchesFiles]: range over [pathMap],
    delete the first key met that is a prefix of the file name, and break. *)
Definition range_delete (o : RangeOrder) (filename : string) (pathMap : gset string)
  : gset string :=
  match List.find (λ parentPath, HasPrefix filename parentPath) (o (elements pathMap)) with
  | Some parentPath => pathMap ∖ {[parentPath]}
  | None => pathMap
  end.

(** [for _, node := range match.Frags[i]]; [j] counts the nodes. *)
Fixpoint nodes_loop (o : nat → RangeOrder) (j : nat) (frag : Frag) (pathMap : gset string)
  : gset string :=
  match frag with
  | [] => pathMap
  | node :: rest =>
    nodes_loop o (S j) rest (range_delete (o j) (Filename node) pathMap)
  end.

(** [for i := 0; i < len(match.Frags) && len(pathMap) != 0; i++]. *)
Fixpoint frags_loop (o : nat → nat → RangeOrder) (i : nat) (frags : Group)
    (pathMap : gset string) : gset string :=
  match frags with
  | [] => pathMap
  | frag :: rest =>
    if decide (size pathMap ≠ 0%nat)
    then frags_loop o (S i) rest (nodes_loop (o i) 0 frag pathMap)
    else pathMap
  end.

(** The closure [matchesFiles]; [paths] is the package-level variable. *)
Definition matchesFiles (o : nat → nat → RangeOrder) (paths : list string) (frags : Group)
  : bool :=
  let pathMap : gset string := list_to_set paths in
  bool_decide (size (frags_loop o 0 frags pathMap) = 0%nat).

(** Whether the extracted match is sent on [duplChan]. *)
Definition emits (o : nat → nat → RangeOrder) (paths : list string) (m : Match) : bool :=
  bool_decide (0 < length (Frags m))%nat && matchesFiles o paths (Frags m).

Section FindDuplicates.
(** [suffixtree.Match] and [syntax.FindSyntaxUnits] belong to other
    packages; the driver only passes the one to the other. *)
Context {RawMatch : Type}.
Variable FindSyntaxUnits : list Node → RawMatch → Z → Match.

(** [findDuplicates]: the values sent on [duplChan] before it is closed,
    given the values received from [mchan].  [n] counts the raw matches
    received so far. *)
Fixpoint findDuplicates_from (o : nat → nat → nat → RangeOrder) (n : nat)
    (paths : list string) (data : list Node) (threshold : Z)
    (mchan : list RawMatch) : list Match :=
  match mchan with
  | [] => []
  | m :: rest =>
    let match_ := FindSyntaxUnits data m threshold in
    let sent := if emits (o n) paths match_ then [match_] else [] in
    sent ++ findDuplicates_from o (S n) paths data threshold rest
  end.

Definition findDuplicates (o : nat → nat → nat → RangeOrder)
    (paths : list string) (data : list Node) (threshold : Z)
    (mchan : list RawMatch) : list Match :=
  findDuplicates_from o 0 paths data threshold mchan.
End FindDuplicates.

(** A root path is covered by a match when some node of some fragment has a
    file name with that root as a prefix. *)
Definition covered (frags : Group) (root : string) : bool :=
  existsb (λ frag : Frag, existsb (λ node, HasPrefix (Filename node) root) frag) frags.

Definition covers_all (paths : list string) (frags : Group) : bool :=
  forallb (covered frags) paths.

(** ** [main] *)

(** Go's [int] on a 64-bit platform. *)
Definition int_min : Z := - 2 ^ 63.
Definition int_max : Z := 2 ^ 63 - 1.
Definition is_int (z : Z) : Prop := int_min ≤ z ≤ int_max.

(** The value of an arithmetic result after wrap-around. *)
Definition wrap (z : Z) : Z := (z - int_min) `mod` 2 ^ 64 + int_min.

(** The command line after [flag.Parse]: the flags and [flag.Args()]. *)
Record Flags : Set := mkFlags {
  vendor : bool;
  verbose : bool;
  fromThreshold : Z;
  toThreshold : Z;
  files : bool;
  html : bool;
  plumbing : bool;
  Args : list string
}.

Definition defaultThreshold : Z := 15.

(** The initial value of the package-level variable [paths]. *)
Definition default_paths : list string := ["."].

(** [paths] once [main] has looked at [flag.NArg()]. *)
Definition effective_paths (args : list string) : list string :=
  if decide (0 < length args)%nat then args else default_paths.

(** Where [filesFeed] takes the file names from. *)
Inductive Feed : Set :=
| FromStdin
| CrawlPaths (paths : list string).

Global Instance Feed_eq_dec : EqDecision Feed.
Proof. solve_decision. Defined.

Definition filesFeed (fl : Flags) (paths : list string) : Feed :=
  if files fl then FromStdin else CrawlPaths paths.

Inductive PrinterKind : Set := Text | HTML | Plumbing.

Global Instance PrinterKind_eq_dec : EqDecision PrinterKind.
Proof. solve_decision. Defined.

(** The node [&syntax.Node{Type: -1}] that finishes the stream; the other
    fields have their zero values. *)
Definition sentinel : Node := mkNode (-1) "" 0 0 0.

(** What [main] does, in order. *)
Inductive Event : Set :=
| Fatal (msg : string)             (* log.Fatal: report and exit with status 1 *)
| Println (msg : string)           (* log.Println *)
| Parse (feed : Feed)              (* schan := job.Parse(filesFeed()) *)
| BuildTree                        (* t, data, done := job.BuildTree(schan) *)
| Done                             (* <-done *)
| Update (n : Node)                (* t.Update(n) *)
| NewPrinter (k : PrinterKind)     (* p := newPrinter(os.Stdout, ioutil.ReadFile) *)
| FindDuplOver (i : Z)             (* mchan := t.FindDuplOver(i) *)
| GoFindDuplicates (i : Z)         (* go findDuplicates(data, i, mchan, duplChan) *)
| PrintDupls (thresholds : list Z) (* printDupls(p, duplChans), one channel per threshold *)
| RuntimePanic                     (* a run-time panic: the program exits with status 2 *).

Global Instance Event_eq_dec : EqDecision Event.
Proof. solve_decision. Defined.

Inductive Exit : Set :=
| Returned            (* main returns *)
| Exited (code : Z)   (* os.Exit *)
| Running             (* still in the loop when the fuel is spent *).

(** [for i := *fromThreshold; i >= *toThreshold; i -= 1 { ... }]: at most
    [fuel] iterations.  The result is the events of the iterations run and,
    when the loop has been left, the thresholds of the channels appended to
    [duplChans], in order. *)
Fixpoint threshold_loop (fuel : nat) (i to : Z) : list Event * option (list Z) :=
  if decide (i >= to) then
    match fuel with
    | O => ([], None)
    | S fuel' =>
      let '(evs, chans) := threshold_loop fuel' (wrap (i - 1)) to in
      (FindDuplOver i :: GoFindDuplicates i :: evs, cons i <$> chans)
    end
  else ([], Some []).

Definition printer_kind (fl : Flags) : PrinterKind :=
  if html fl then HTML else if plumbing fl then Plumbing else Text.

Definition if_verbose (fl : Flags) (msg : string) : list Event :=
  if verbose fl then [Println msg] else [].

(** The start of the pipeline: the calls that [main] makes before it waits
    on [done]. *)
Definition start_events (fl : Flags) : list Event :=
  if_verbose fl "Building suffix tree"
  ++ [Parse (filesFeed fl (effective_paths (Args fl))); BuildTree].

(** From the start of the pipeline to the choice of the printer, when the
    receive on [done] returns. *)
Definition build_events (fl : Flags) : list Event :=
  if_verbose fl "Building suffix tree"
  ++ [Parse (filesFeed fl (effective_paths (Args fl))); BuildTree; Done; Update sentinel]
  ++ if_verbose fl "Searching for clones"
  ++ [NewPrinter (printer_kind fl)].

(** The call of [printDupls] and what follows it; [perr] is the error that
    [printDupls] returns. *)
Definition print_events (perr : option string) (chans : list Z) : list Event * Exit :=
  match perr with
  | Some err => ([PrintDupls chans; Fatal err], Exited 1)
  | None => ([PrintDupls chans], Returned)
  end.

(** The thresholds from [from] down to [to]. *)
Definition descending (from to : Z) : list Z :=
  (λ k : nat, from - Z.of_nat k) <$> seq 0 (Z.to_nat (from - to + 1)).

Definition query_events (thresholds : list Z) : list Event :=
  thresholds ≫= λ i, [FindDuplOver i; GoFindDuplicates i].

(** ** [printDupls] *)

(** The interface [printer.Printer]; a method returns the new state of the
    printer and its error, [None] for [nil]. *)
Class Printer (P : Type) := {
  PrintHeader : P → P * option string;
  PrintClones : Group → P → P * option string;
  PrintFooter : P → P * option string
}.

(** How a call of [printDupls] ends. *)
Inductive Outcome : Set :=
| Nil                    (* returns nil *)
| Error (err : string)   (* returns the printer's error *)
| Panic                  (* index out of range in [unique] *).

(** [groups[dupl.Hash] = append(groups[dupl.Hash], dupl.Frags...)]. *)
Definition add_match (groups : gmap string Group) (dupl : Match) : gmap string Group :=
  <[Hash dupl := default [] (groups !! Hash dupl) ++ Frags dupl]> groups.

(** The first loop: every channel in turn is drained into [groups]. *)
Definition collect (duplChans : list (list Match)) : gmap string Group :=
  foldl (foldl add_match) ∅ duplChans.

(** [sort.Strings]: ascending in the byte-wise lexicographic order. *)
Definition sort_Strings (keys : list string) : list string :=
  merge_sort String.le keys.

(** [for k := range groups { keys = append(keys, k) }; sort.Strings(keys)]. *)
Definition sorted_keys (o : RangeOrder) (groups : gmap string Group) : list string :=
  sort_Strings (o (elements (dom groups))).

Section PrintDupls.
Context `{Printer P}.

(** [for _, k := range keys { ... }; return p.PrintFooter()]. *)
Fixpoint print_groups (groups : gmap string Group) (keys : list string) (p : P)
  : P * Outcome :=
  match keys with
  | [] =>
    let '(p, err) := PrintFooter p in (p, from_option Error Nil err)
  | k :: rest =>
    match unique (default [] (groups !! k)) with
    | None => (p, Panic)
    | Some uniq =>
      if decide (1 < length uniq)%nat then
        match PrintClones uniq p with
        | (p, Some err) => (p, Error err)
        | (p, None) => print_groups groups rest p
        end
      else print_groups groups rest p
    end
  end.

Definition printDupls (o : RangeOrder) (p : P) (duplChans : list (list Match))
  : P * Outcome :=
  let groups := collect duplChans in
  let keys := sorted_keys o groups in
  match PrintHeader p with
  | (p, Some err) => (p, Error err)
  | (p, None) => print_groups groups keys p
  end.
End PrintDupls.

(** A printer that also records the calls it receives. *)
Inductive Call : Set :=
| CallHeader
| CallClones (dups : Group)
| CallFooter.

Definition record_call {P} (c : Call) (log : list Call) (r : P * option string)
  : (P * list Call) * option string :=
  ((r.1, log ++ [c]), r.2).

Global Instance recording `{Printer P} : Printer (P * list Call) := {|
  PrintHeader s := record_call CallHeader s.2 (PrintHeader s.1);
  PrintClones dups s := record_call (CallClones dups) s.2 (PrintClones dups s.1);
  PrintFooter s := record_call CallFooter s.2 (PrintFooter s.1)
|}.

(** The groups passed to [PrintClones], in the order of the calls. *)
Definition printed (log : list Call) : list Group :=
  omap (λ c, match c with CallClones dups => Some dups | _ => None end) log.

(** What [printDupls] passes for key [k], if anything. *)
Definition to_print (groups : gmap string Group) (k : string) : option Group :=
  match unique (default [] (groups !! k)) with
  | Some uniq => if decide (1 < length uniq)%nat then Some uniq else None
  | None => None
  end.

(** A printer without state that never fails. *)
Global Instance quiet : Printer unit := {|
  PrintHeader _ := (tt, None);
  PrintClones _ _ := (tt, None);
  PrintFooter _ := (tt, None)
|}.

(** A printer that follows a script: each call takes the next result of the
    list, and returns nil once the list is used up. *)
Definition scripted_call (script : list (option string))
  : list (option string) * option string :=
  match script with
  | [] => ([], None)
  | err :: rest => (rest, err)
  end.

Global Instance scripted : Printer (list (option string)) := {|
  PrintHeader := scripted_call;
  PrintClones _ := scripted_call;
  PrintFooter := scripted_call
|}.

(** ** [crawlPaths] *)

(** What the driver reads of an [os.FileInfo]. *)
Record FileInfo : Set := mkFileInfo {
  IsDir : bool;
  Name : string
}.

(** One call of the walk function by [filepath.Walk]: the path, the file
    info ([None] for a nil interface, as after a failed lstat of an entry)
    and the error of reaching the path. *)
Record Visit : Set := mkVisit {
  visit_path : string;
  visit_info : option FileInfo;
  visit_err : option string
}.

(** The file system as the crawl observes it: the result of [os.Lstat] and,
    for a directory, the calls [filepath.Walk] makes as long as the walk
    function returns nil. *)
Record FileSystem : Type := mkFileSystem {
  Lstat : string → FileInfo + string;
  visits : string → list Visit
}.

Inductive WalkResult : Set :=
| WalkNil
| WalkErr (err : string)
| WalkPanic.

(** [filepath.Walk]: the walk function is called on every visit until it
    returns an error, which is then the result of the walk. *)
Fixpoint Walk (vs : list Visit) (fn : Visit → list string * WalkResult)
  : list string * WalkResult :=
  match vs with
  | [] => ([], WalkNil)
  | v :: rest =>
    match fn v with
    | (sent, WalkNil) => let '(sent', r) := Walk rest fn in (sent ++ sent', r)
    | (sent, r) => (sent, r)
    end
  end.

(** [filepath.Separator] on the platforms where it is a slash. *)
Definition Separator : string := "/".
Definition vendorDirPrefix : string := ("vendor" ++ Separator)%string.
Definition vendorDirInPath : string := (Separator ++ vendorDirPrefix)%string.

(** The function literal passed to [filepath.Walk]: the file names it sends
    on [fchan] and its result.  It never looks at [err]; calling
    [info.IsDir()] on a nil [info] panics. *)
Definition walkFn (vendor : bool) (v : Visit) : list string * WalkResult :=
  if negb vendor && (HasPrefix (visit_path v) vendorDirPrefix
                     || Contains (visit_path v) vendorDirInPath)
  then ([], WalkNil)
  else
    match visit_info v with
    | None => ([], WalkPanic)
    | Some info =>
      if negb (IsDir info) && HasSuffix (Name info) ".go"
      then ([visit_path v], WalkNil)
      else ([], WalkNil)
    end.

(** How the goroutine of [crawlPaths] ends. *)
Inductive CrawlEnd : Set :=
| Closed                      (* close(fchan) *)
| CrawlFatal (err : string)   (* log.Fatal(err): the program exits *)
| CrawlPanic.

(** [crawlPaths]: the file names sent on [fchan], and how the crawl ends. *)
Fixpoint crawlPaths (fs : FileSystem) (vendor : bool) (paths : list string)
  : list string * CrawlEnd :=
  match paths with
  | [] => ([], Closed)
  | path :: rest =>
    match Lstat fs path with
    | inr err => ([], CrawlFatal err)
    | inl info =>
      if negb (IsDir info) then
        let '(sent, e) := crawlPaths fs vendor rest in (path :: sent, e)
      else
        match Walk (visits fs path) (walkFn vendor) with
        | (sent, WalkNil) =>
          let '(sent', e) := crawlPaths fs vendor rest in (sent ++ sent', e)
        | (sent, WalkErr err) => (sent, CrawlFatal err)
        | (sent, WalkPanic) => (sent, CrawlPanic)
        end
    end
  end.

(** ** The stream fed to the suffix tree *)

(** Modelled from the spec: the stream of [job.BuildTree], whose package is
    not among the sources.  The builder receives the node sequences of the
    files in arrival order, appends each to one flat sequence and feeds its
    tokens to the tree one at a time; as the design notes read the source,
    nothing is put between the files.  After all files [main] feeds the one
    node of [t.Update(&syntax.Node{Type: -1})]. *)
Definition fed_stream (seqs : list (list Node)) : list Node :=
  concat seqs ++ [sentinel].

(** [stream[p .. p+len)]. *)
Definition slice {A} (p len : nat) (stream : list A) : list A :=
  take len (drop p stream).

(** The token kinds of a part of the stream, which are what the tree
    compares. *)
Definition kinds (frag : list Node) : list Z := Type' <$> frag.

(** Modelled from the spec: a raw match of the suffix tree, here two of
    its starting positions.  The same sequence of [len] kinds occurs at the
    distinct positions [p] and [q] of the stream. *)
Definition is_repeat (stream : list Node) (len p q : nat) : Prop :=
  p ≠ q ∧
  (p + len ≤ length stream)%nat ∧ (q + len ≤ length stream)%nat ∧
  kinds (slice p len stream) = kinds (slice q len stream).

Global Instance is_repeat_dec stream len p q : Decision (is_repeat stream len p q).
Proof. unfold is_repeat. apply _. Defined.


(** The fragments of the matches with hash [h], in the order in which
    [printDupls] receives the matches: channel after channel. *)
Definition frags_of_hash (h : string) (duplChans : list (list Match)) : Group :=
  concat (Frags <$> filter (λ m, Hash m = h) (concat duplChans)).

(** ** The walk function, case by case *)

(** The test of the walk function on the path: whether it lies in a vendor
    directory. *)
Definition vendored (path : string) : bool :=
  HasPrefix path vendorDirPrefix || Contains path vendorDirInPath.

(** The visits on which the walk function sends the path. *)
Definition accepts (vendor : bool) (v : Visit) : bool :=
  negb (negb vendor && vendored (visit_path v)) &&
  match visit_info v with
  | Some info => negb (IsDir info) && HasSuffix (Name info) ".go"
  | None => false
  end.

(** The visits on which it calls [info.IsDir()] with a nil [info]. *)
Definition panics (vendor : bool) (v : Visit) : bool :=
  negb (negb vendor && vendored (visit_path v)) &&
  match visit_info v with
  | Some _ => false
  | None => true
  end.

Global Instance CrawlEnd_eq_dec : EqDecision CrawlEnd.
Proof. solve_decision. Defined.

(** A path that the crawl gets through: [os.Lstat] succeeds and, for a
    directory, no visit of the walk makes the walk function panic. *)
Definition crawlable (fs : FileSystem) (vendor : bool) (path : string) : Prop :=
  ∃ info, Lstat fs path = inl info ∧
          (IsDir info = true → Forall (λ v, panics vendor v = false) (visits fs path)).

(** ** [filesFeed] *)

(** [strings.TrimPrefix(s, prefix)]. *)
Definition TrimPrefix (s prefix : string) : string :=
  if HasPrefix s prefix
  then String.substring (String.length prefix) (String.length s - String.length prefix) s
  else s.

(** The goroutine of [filesFeed] under [-files]: one file name for each
    token of the scanner.  [tokens] are the values of [s.Text()] for the
    calls of [s.Scan()] that return true; how [bufio.Scanner] cuts the
    standard input into tokens, and where it stops (at the end of the input
    or at its first error, such as a line that is too long), is not part
    of the driver. *)
Definition stdin_names (tokens : list string) : list string :=
  (λ f, TrimPrefix f "./") <$> tokens.

(** [filesFeed]: the file names sent on the channel and how the feed ends;
    [tokens] are the tokens that the scanner reads from the standard
    input. *)
Definition feed (fs : FileSystem) (fl : Flags) (paths : list string) (tokens : list string)
  : list string * CrawlEnd :=
  if files fl then (stdin_names tokens, Closed)
  else crawlPaths fs (vendor fl) paths.

(** ** [main], with the feed *)

(** [main].  After the calls that start the pipeline it waits on [done],
    which the builder signals once the channel of file names is closed and
    drained.  A feed that ends in [log.Fatal] or in a panic ends the
    program while [main] waits; otherwise [main] goes on with the sentinel,
    the printer, the loop over the thresholds and [printDupls]. *)
Definition main (fs : FileSystem) (tokens : list string) (fl : Flags)
    (perr : option string) (fuel : nat) : list Event * Exit :=
  if html fl && plumbing fl
  then ([Fatal "you can have either plumbing or HTML output"], Exited 1)
  else
    match (feed fs fl (effective_paths (Args fl)) tokens).2 with
    | CrawlFatal err => (start_events fl ++ [Fatal err], Exited 1)
    | CrawlPanic => (start_events fl ++ [RuntimePanic], Exited 2)
    | Closed =>
      match threshold_loop fuel (fromThreshold fl) (toThreshold fl) with
      | (evs, None) => (build_events fl ++ evs, Running)
      | (evs, Some chans) =>
        let '(pevs, exit) := print_events perr chans in
        (build_events fl ++ evs ++ pevs, exit)
      end
    end.

(** A file system in which every path is a directory without entries. *)
Definition empty_tree : FileSystem :=
  mkFileSystem (λ path, inl (mkFileInfo true path)) (λ _, []).

(** ** The flags *)

(** The values of the flag variables before [flag.Parse]. *)
Definition initial_flags : Flags :=
  mkFlags false false defaultThreshold defaultThreshold false false false [].

(** A flag of the command line with its value. *)
Inductive FlagValue : Set :=
| BoolValue (b : bool)
| IntValue (z : Z).

(** The variable that a flag of the given name sets, as the flags are
    registered by the package-level declarations and by [init]: [-v] shares
    the variable of [-verbose], and [-t] the variable of [-from-threshold].
    [None] is a flag that is not defined or a value of the wrong type, on
    which [flag.Parse] calls [usage]. *)
Definition set_flag (name : string) (v : FlagValue) (fl : Flags) : option Flags :=
  match v with
  | BoolValue b =>
    if decide (name = "vendor") then
      Some (mkFlags b (verbose fl) (fromThreshold fl) (toThreshold fl)
              (files fl) (html fl) (plumbing fl) (Args fl))
    else if decide (name = "verbose" ∨ name = "v") then
      Some (mkFlags (vendor fl) b (fromThreshold fl) (toThreshold fl)
              (files fl) (html fl) (plumbing fl) (Args fl))
    else if decide (name = "files") then
      Some (mkFlags (vendor fl) (verbose fl) (fromThreshold fl) (toThreshold fl)
              b (html fl) (plumbing fl) (Args fl))
    else if decide (name = "html") then
      Some (mkFlags (vendor fl) (verbose fl) (fromThreshold fl) (toThreshold fl)
              (files fl) b (plumbing fl) (Args fl))
    else if decide (name = "plumbing") then
      Some (mkFlags (vendor fl) (verbose fl) (fromThreshold fl) (toThreshold fl)
              (files fl) (html fl) b (Args fl))
    else None
  | IntValue z =>
    if decide (name = "from-threshold" ∨ name = "t") then
      Some (mkFlags (vendor fl) (verbose fl) z (toThreshold fl)
              (files fl) (html fl) (plumbing fl) (Args fl))
    else if decide (name = "to-threshold") then
      Some (mkFlags (vendor fl) (verbose fl) (fromThreshold fl) z
              (files fl) (html fl) (plumbing fl) (Args fl))
    else None
  end.

(** The flags of the command line, set from left to right. *)
Fixpoint set_flags (assignments : list (string * FlagValue)) (fl : Flags) : option Flags :=
  match assignments with
  | [] => Some fl
  | (name, v) :: rest =>
    match set_flag name v fl with
    | Some fl' => set_flags rest fl'
    | None => None
    end
  end.

(** The events of [main] other than the lines of the log. *)
Definition is_log (ev : Event) : bool :=
  match ev with
  | Println _ => true
  | _ => false
  end.

Definition without_log (evs : list Event) : list Event :=
  List.filter (λ ev, negb (is_log ev)) evs.

(* ================================================================== *)
(** * Properties *)

(** ** [unique] *)

Example unique_ex :
  unique [[mkNode 1 "a.go" 10 20 0]; [mkNode 1 "b.go" 10 20 0];
          [mkNode 1 "a.go" 10 30 0; mkNode 2 "a.go" 12 14 0]]
  = Some [[mkNode 1 "a.go" 10 20 0]; [mkNode 1 "b.go" 10 20 0]].
Proof. vm_compute. reflexivity. Qed.

Lemma recorded_insert (fm : gmap string (gset Z)) f (file : gset Z) k :
  recorded (<[f := file]> fm) k ↔
  (k.1 = f ∧ k.2 ∈ file) ∨ (k.1 ≠ f ∧ recorded fm k).
Proof.
  unfold recorded. destruct (decide (k.1 = f)) as [->|Hne].
  - rewrite lookup_insert_eq. split.
    + intros (file' & [= <-] & Hin). by left.
    + intros [[_ Hin]|[Hne _]]; [eauto | done].
  - rewrite lookup_insert_ne by done. split.
    + intros H. by right.
    + intros [[Heq _]|[_ H]]; [by subst | done].
Qed.

(** A step on a non-empty fragment either skips a recorded starting point or
    records a new one and appends the fragment. *)
Lemma unique_step_spec fm ng seen node tl :
  (∀ k, recorded fm k ↔ k ∈ seen) →
  let k := (Filename node, Pos node) in
  ∃ fm',
    unique_step (fm, ng) (node :: tl)
    = Some (fm', if decide (k ∈ seen) then ng else ng ++ [node :: tl]) ∧
    (∀ k', recorded fm' k' ↔ k' ∈ (if decide (k ∈ seen) then seen else k :: seen)).
Proof.
  intros Hinv k. unfold unique_step.
  assert (k ∈ seen ↔ ∃ file, fm !! Filename node = Some file ∧ Pos node ∈ file)
    as Hk by (by rewrite <- Hinv).
  destruct (decide (k ∈ seen)) as [Hin|Hnin].
  - apply Hk in Hin as (file & -> & Hp).
    rewrite decide_True by done. exists fm. split; [done|exact Hinv].
  - destruct (fm !! Filename node) as [file|] eqn:Hfile.
    + rewrite decide_False by (intros Hp; apply Hnin, Hk; eauto).
      eexists; split; [done|].
      intros k'. rewrite recorded_insert, elem_of_cons, <- Hinv.
      destruct k' as [f' p']; simpl. unfold recorded; simpl. split.
      * intros [[-> Hp]|[Hne H]]; [|by right].
        apply elem_of_union in Hp as [Hp%elem_of_singleton|Hp]; [left; by subst|].
        right; eauto.
      * intros [[= -> ->]|(file' & Hl & Hp)]; [left; set_solver|].
        destruct (decide (f' = Filename node)) as [->|Hne]; [|right; eauto].
        left. split; [done|]. rewrite Hfile in Hl. injection Hl as <-. set_solver.
    + rewrite decide_False by set_solver.
      eexists; split; [done|].
      intros k'. rewrite !recorded_insert, elem_of_cons, <- Hinv.
      destruct k' as [f' p']; simpl. split.
      * intros [[-> Hp]|[Hne [[_ Hp]|[_ H]]]]; [left|set_solver|by right].
        f_equal. set_solver.
      * intros [[= -> ->]|H]; [left; set_solver|].
        destruct (decide (f' = Filename node)) as [->|Hne]; [|right; split; [done|by right]].
        exfalso. destruct H as (file' & Hl & _). simpl in Hl. congruence.
Qed.

Lemma unique_loop_app_nil st group st' :
  unique_loop st group = Some st' → Forall (λ seq, seq ≠ []) group.
Proof.
  revert st. induction group as [|seq rest IH]; intros st H; [constructor|].
  simpl in H. destruct (unique_step st seq) as [st1|] eqn:Hstep; [|done].
  constructor; [|by eapply IH].
  intros ->. destruct st. done.
Qed.

(** On fragments that all have a first node the loop returns, and what it
    appends is what the specification's deduplication keeps. *)
Lemma unique_loop_keep_first group : ∀ fm ng seen,
  (∀ k, recorded fm k ↔ k ∈ seen) →
  Forall (λ seq, seq ≠ []) group →
  ∃ fm', unique_loop (fm, ng) group = Some (fm', ng ++ keep_first seen group).
Proof.
  induction group as [|seq rest IH]; intros fm ng seen Hinv Hne.
  - simpl. rewrite app_nil_r. eauto.
  - inversion Hne as [|? ? Hseq Hrest]; subst.
    destruct seq as [|node tl]; [done|].
    destruct (unique_step_spec fm ng seen node tl Hinv) as (fm1 & Hstep & Hinv1).
    cbn [unique_loop]. rewrite Hstep. cbn [keep_first frag_key].
    destruct (decide ((Filename node, Pos node) ∈ seen)).
    + by apply IH.
    + destruct (IH fm1 (ng ++ [node :: tl]) _ Hinv1 Hrest) as (fm' & ->).
      exists fm'. by rewrite <- app_assoc.
Qed.

Lemma recorded_empty k : recorded ∅ k ↔ k ∈ @nil (string * Z).
Proof.
  split; [|by intros ?%elem_of_nil].
  intros (file & Hl & _). by rewrite lookup_empty in Hl.
Qed.

Lemma unique_is_keep_first group :
  Forall (λ seq, seq ≠ []) group → unique group = Some (keep_first [] group).
Proof.
  intros Hne. unfold unique.
  destruct (unique_loop_keep_first group ∅ [] [] recorded_empty Hne) as (fm' & ->).
  done.
Qed.

Lemma unique_Some_nonempty group g' :
  unique group = Some g' → Forall (λ seq, seq ≠ []) group.
Proof.
  unfold unique. destruct (unique_loop (∅, []) group) as [st|] eqn:H; [|done].
  intros _. by eapply unique_loop_app_nil.
Qed.

(** What [keep_first] keeps. *)
Lemma keep_first_sublist group : ∀ seen, keep_first seen group `sublist_of` group.
Proof.
  induction group as [|seq rest IH]; intros seen; simpl; [done|].
  destruct (frag_key seq) as [k|]; [destruct (decide (k ∈ seen))|].
  - by apply sublist_cons.
  - by apply sublist_skip.
  - by apply sublist_cons.
Qed.

Lemma keep_first_keys group : ∀ seen seq,
  seq ∈ keep_first seen group →
  ∃ k, frag_key seq = Some k ∧ k ∉ seen.
Proof.
  induction group as [|s rest IH]; intros seen seq; simpl; [by intros ?%elem_of_nil|].
  destruct (frag_key s) as [k|] eqn:Hk; [destruct (decide (k ∈ seen))|]; [by apply IH| |by apply IH].
  intros [->|Hin]%elem_of_cons; [eauto|].
  destruct (IH _ _ Hin) as (k' & Hk' & Hnin). exists k'. split; [done|set_solver].
Qed.

Lemma keep_first_NoDup group : ∀ seen, NoDup (frag_key <$> keep_first seen group).
Proof.
  induction group as [|s rest IH]; intros seen; simpl; [constructor|].
  destruct (frag_key s) as [k|] eqn:Hk; [destruct (decide (k ∈ seen))|]; [done| |done].
  rewrite fmap_cons. constructor; [|done].
  intros (seq & Hseq & Hin)%list_elem_of_fmap.
  destruct (keep_first_keys _ _ _ Hin) as (k' & Hk' & Hnin).
  rewrite Hk in Hseq. rewrite <- Hseq in Hk'. injection Hk' as <-. set_solver.
Qed.

Lemma keep_first_first group : ∀ seen l1 seq l2,
  group = l1 ++ seq :: l2 →
  seq ≠ [] →
  frag_key seq ∉ (Some <$> seen) →
  frag_key seq ∉ (frag_key <$> l1) →
  seq ∈ keep_first seen group.
Proof.
  induction group as [|s rest IH]; intros seen l1 seq l2 Heq Hne Hseen Hl1.
  - by destruct l1.
  - destruct l1 as [|s1 l1]; simplify_eq/=.
    + destruct seq as [|node tl]; [done|]. simpl in *.
      rewrite decide_False; [set_solver|].
      intros Hin. apply Hseen. apply list_elem_of_fmap. eauto.
    + apply not_elem_of_cons in Hl1 as [Hs1 Hl1].
      destruct (frag_key s1) as [k|] eqn:Hk; [destruct (decide (k ∈ seen))|].
      * by eapply IH.
      * apply elem_of_cons. right. eapply IH; [done..| |done].
        rewrite fmap_cons. apply not_elem_of_cons. done.
      * by eapply IH.
Qed.

Lemma keep_first_covers group : ∀ seen seq k,
  seq ∈ group → frag_key seq = Some k → k ∉ seen →
  ∃ kept, kept ∈ keep_first seen group ∧ frag_key kept = Some k.
Proof.
  induction group as [|s rest IH]; intros seen seq k Hin Hk Hseen;
    [by apply elem_of_nil in Hin|].
  simpl. apply elem_of_cons in Hin as [->|Hin].
  - rewrite Hk, decide_False by done. exists s. split; [apply elem_of_cons; by left|done].
  - destruct (frag_key s) as [k'|] eqn:Hk'; [destruct (decide (k' ∈ seen))|].
    + by eapply IH.
    + destruct (decide (k = k')) as [->|Hne].
      * exists s. split; [apply elem_of_cons; by left|done].
      * destruct (IH (k' :: seen) seq k Hin Hk) as (kept & Hkept & Hkk); [set_solver|].
        exists kept. split; [apply elem_of_cons; by right|done].
    + by eapply IH.
Qed.

(** C4: within a group [unique] keeps one fragment per (file name, starting
    position) pair, the first one in the group's order, and discards the
    later ones; the group it returns has no two fragments with the same
    file name and starting position. *)
Theorem unique_one_per_start (group g' : Group) :
  unique group = Some g' →
  g' = keep_first [] group ∧
  NoDup (frag_key <$> g') ∧
  g' `sublist_of` group ∧
  (∀ l1 seq l2, group = l1 ++ seq :: l2 →
     frag_key seq ∉ (frag_key <$> l1) → seq ∈ g') ∧
  (∀ seq, seq ∈ group → ∃ kept, kept ∈ g' ∧ frag_key kept = frag_key seq).
Proof.
  intros Hu. pose proof (unique_Some_nonempty _ _ Hu) as Hne.
  rewrite (unique_is_keep_first _ Hne) in Hu. injection Hu as <-.
  split; [done|]. split; [apply keep_first_NoDup|].
  split; [apply keep_first_sublist|]. split.
  - intros l1 seq l2 -> Hl1. eapply keep_first_first; [done| |by rewrite fmap_nil; apply not_elem_of_nil|done].
    rewrite Forall_app, Forall_cons in Hne. tauto.
  - intros seq Hin. destruct seq as [|node tl].
    + rewrite Forall_forall in Hne. by destruct (Hne _ Hin).
    + destruct (keep_first_covers group [] (node :: tl) _ Hin eq_refl) as (kept & ? & ?);
        [apply not_elem_of_nil|eauto].
Qed.

Lemma unique_one_per_start_witness :
  let a1 := [mkNode 1 "a.go" 10 20 0] in
  let b1 := [mkNode 1 "b.go" 10 20 0] in
  let a2 := [mkNode 1 "a.go" 10 30 0; mkNode 2 "a.go" 12 14 0] in
  unique [a1; b1; a2] = Some [a1; b1] ∧ NoDup (frag_key <$> [a1; b1]).
Proof.
  intros a1 b1 a2.
  assert (unique [a1; b1; a2] = Some [a1; b1]) as H by (vm_compute; reflexivity).
  split; [exact H|]. exact (proj1 (proj2 (unique_one_per_start _ _ H))).
Defined.

(** C10: [unique] reads [seq[0]] of every fragment of the group, so it
    returns exactly when every fragment has at least one node: on such a
    group it yields a result, and it panics (index out of range) exactly
    when some fragment is empty. *)
Theorem unique_total_on_nonempty (group : Group) :
  (Forall (λ seq, seq ≠ []) group → ∃ g', unique group = Some g') ∧
  (unique group = None ↔ Exists (λ seq, seq = []) group).
Proof.
  split.
  - intros Hne. rewrite (unique_is_keep_first _ Hne). eauto.
  - split.
    + intros Hnone.
      destruct (decide (Exists (λ seq : Frag, seq = []) group)) as [|Hn]; [done|].
      assert (Forall (λ seq : Frag, seq ≠ []) group) as Hne.
      { apply Forall_forall. intros seq Hin ->. apply Hn, Exists_exists. eauto. }
      by rewrite (unique_is_keep_first _ Hne) in Hnone.
    + intros Hex. destruct (unique group) as [g'|] eqn:Hu; [|done].
      apply unique_Some_nonempty in Hu. rewrite Forall_forall in Hu.
      apply Exists_exists in Hex as (seq & Hin & ->). by destruct (Hu [] Hin).
Qed.

Lemma unique_total_on_nonempty_witness :
  ∃ g', unique [[mkNode 3 "a.go" 1 2 0]; [mkNode 3 "a.go" 7 8 0]] = Some g'.
Proof.
  apply (proj1 (unique_total_on_nonempty _)).
  repeat constructor; discriminate.
Defined.

(** ** The path filter of [findDuplicates] *)

Local Ltac in_head := apply elem_of_cons; by left.
Local Ltac in_tail := apply elem_of_cons; by right.

Lemma range_delete_subseteq o fn pm : range_delete o fn pm ⊆ pm.
Proof. unfold range_delete. destruct (find _ _); set_solver. Qed.

(** A key leaves [pathMap] only as a prefix of the file name at hand. *)
Lemma range_delete_removed o fn pm q :
  q ∈ pm → q ∉ range_delete o fn pm → HasPrefix fn q = true.
Proof.
  unfold range_delete. intros Hin Hout.
  destruct (find _ _) as [p|] eqn:Hfind; [|done].
  apply find_some in Hfind as [_ Hp].
  destruct (decide (q = p)) as [->|Hne]; [done|]. set_solver.
Qed.

(** When at most one key of [pathMap] is a prefix of the file name, the keys
    left are those that are not a prefix of it, whatever the order. *)
Lemma range_delete_apart o fn pm :
  is_iteration o →
  (∀ q q', q ∈ pm → q' ∈ pm → HasPrefix fn q = true → HasPrefix fn q' = true → q = q') →
  ∀ q, q ∈ range_delete o fn pm ↔ q ∈ pm ∧ HasPrefix fn q = false.
Proof.
  intros Ho Hap q. unfold range_delete, is_iteration in *.
  destruct (find _ _) as [p|] eqn:Hfind.
  - apply find_some in Hfind as [Hp Hpre].
    apply list_elem_of_In in Hp. rewrite Ho, elem_of_elements in Hp.
    rewrite elem_of_difference, elem_of_singleton. split.
    + intros [Hq Hne]. split; [done|].
      destruct (HasPrefix fn q) eqn:Hq'; [|done]. destruct Hne. by apply Hap.
    + intros [Hq Hq']. split; [done|]. intros ->. congruence.
  - split; [|tauto]. intros Hq. split; [done|].
    assert (In q (o (elements pm))) as Hin.
    { apply list_elem_of_In. by rewrite Ho, elem_of_elements. }
    apply (find_none _ _ Hfind) in Hin. done.
Qed.

Definition in_frag_with_prefix (frag : Frag) (q : string) : Prop :=
  ∃ node, node ∈ frag ∧ HasPrefix (Filename node) q = true.

Lemma nodes_loop_subseteq o frag : ∀ j pm, nodes_loop o j frag pm ⊆ pm.
Proof.
  induction frag as [|node rest IH]; intros j pm; simpl; [done|].
  etrans; [apply IH|apply range_delete_subseteq].
Qed.

Lemma nodes_loop_removed o frag : ∀ j pm q,
  q ∈ pm → q ∉ nodes_loop o j frag pm → in_frag_with_prefix frag q.
Proof.
  induction frag as [|node rest IH]; intros j pm q Hin Hout; simpl in *; [done|].
  destruct (decide (q ∈ range_delete (o j) (Filename node) pm)) as [Hq|Hq].
  - destruct (IH _ _ _ Hq Hout) as (n & Hn & Hp). exists n. split; [in_tail|done].
  - exists node. split; [in_head|]. by eapply range_delete_removed.
Qed.

Lemma nodes_loop_apart o frag : ∀ j pm,
  (∀ j, is_iteration (o j)) →
  (∀ node q q', node ∈ frag → q ∈ pm → q' ∈ pm →
     HasPrefix (Filename node) q = true → HasPrefix (Filename node) q' = true → q = q') →
  ∀ q, q ∈ nodes_loop o j frag pm ↔ q ∈ pm ∧ ¬ in_frag_with_prefix frag q.
Proof.
  induction frag as [|node rest IH]; intros j pm Ho Hap q; simpl.
  - split; [|tauto]. intros Hq. split; [done|]. intros (n & Hn & _). by apply elem_of_nil in Hn.
  - pose proof (range_delete_subseteq (o j) (Filename node) pm) as Hsub.
    rewrite IH; [|done|].
    + rewrite range_delete_apart;
        [|done|intros q1 q2 ????; apply (Hap node q1 q2); [in_head|done..]].
      split.
      * intros [[Hq Hpre] Hrest]. split; [done|].
        intros (n & [->|Hn]%elem_of_cons & Hp); [congruence|]. apply Hrest. by exists n.
      * intros [Hq Hnone]. split; [split; [done|]|].
        -- destruct (HasPrefix (Filename node) q) eqn:Hp; [|done].
           destruct Hnone. exists node. split; [in_head|done].
        -- intros (n & Hn & Hp). apply Hnone. exists n. split; [in_tail|done].
    + intros n q1 q2 Hn Hq1 Hq2. apply (Hap n); [in_tail|set_solver..].
Qed.

Definition in_frags_with_prefix (frags : Group) (q : string) : Prop :=
  ∃ frag, frag ∈ frags ∧ in_frag_with_prefix frag q.

Lemma frags_loop_subseteq o frags : ∀ i pm, frags_loop o i frags pm ⊆ pm.
Proof.
  induction frags as [|frag rest IH]; intros i pm; simpl; [done|].
  case_decide; [|done]. etrans; [apply IH|apply nodes_loop_subseteq].
Qed.

Lemma frags_loop_removed o frags : ∀ i pm q,
  q ∈ pm → q ∉ frags_loop o i frags pm → in_frags_with_prefix frags q.
Proof.
  induction frags as [|frag rest IH]; intros i pm q Hin Hout; simpl in *; [done|].
  case_decide; [|done].
  destruct (decide (q ∈ nodes_loop (o i) 0 frag pm)) as [Hq|Hq].
  - destruct (IH _ _ _ Hq Hout) as (f & Hf & Hp). exists f. split; [in_tail|done].
  - exists frag. split; [in_head|]. by eapply nodes_loop_removed.
Qed.

Lemma frags_loop_apart o frags : ∀ i pm,
  (∀ i j, is_iteration (o i j)) →
  (∀ frag node q q', frag ∈ frags → node ∈ frag → q ∈ pm → q' ∈ pm →
     HasPrefix (Filename node) q = true → HasPrefix (Filename node) q' = true → q = q') →
  ∀ q, q ∈ frags_loop o i frags pm ↔ q ∈ pm ∧ ¬ in_frags_with_prefix frags q.
Proof.
  induction frags as [|frag rest IH]; intros i pm Ho Hap q; simpl.
  - split; [|tauto]. intros Hq. split; [done|]. intros (f & Hf & _). by apply elem_of_nil in Hf.
  - case_decide as Hsz.
    + pose proof (nodes_loop_subseteq (o i) frag 0%nat pm) as Hsub.
      rewrite IH; [|done|].
      * rewrite nodes_loop_apart;
          [|done|intros n q1 q2 ?????; apply (Hap frag n q1 q2); [in_head|done..]].
        split.
        -- intros [[Hq Hfrag] Hrest]. split; [done|].
           intros (f & [->|Hf]%elem_of_cons & Hp); [done|]. apply Hrest. by exists f.
        -- intros [Hq Hnone]. split; [split; [done|]|].
           ++ intros Hp. apply Hnone. exists frag. split; [in_head|done].
           ++ intros (f & Hf & Hp). apply Hnone. exists f. split; [in_tail|done].
      * intros f n q1 q2 Hf Hn Hq1 Hq2. apply (Hap f); [in_tail|done|set_solver..].
    + assert (pm = ∅) as -> by (by apply leibniz_equiv, size_empty_iff).
      set_solver.
Qed.

Lemma covered_spec frags q : covered frags q = true ↔ in_frags_with_prefix frags q.
Proof.
  unfold covered, in_frags_with_prefix, in_frag_with_prefix.
  rewrite existsb_exists. split.
  - intros (frag & Hf%list_elem_of_In & (node & Hn%list_elem_of_In & Hp)%existsb_exists). eauto.
  - intros (frag & Hf & node & Hn & Hp). exists frag. split; [by apply list_elem_of_In|].
    apply existsb_exists. exists node. split; [by apply list_elem_of_In|done].
Qed.

Lemma covers_all_spec paths frags :
  covers_all paths frags = true ↔ ∀ q, q ∈ paths → covered frags q = true.
Proof.
  unfold covers_all. rewrite forallb_forall. split.
  - intros H q Hq. by apply H, list_elem_of_In.
  - intros H q Hq. by apply H, list_elem_of_In.
Qed.

(** Whatever the orders of iteration, [matchesFiles] answers true only when
    every path is covered. *)
Lemma matchesFiles_sound o paths frags :
  matchesFiles o paths frags = true → covers_all paths frags = true.
Proof.
  unfold matchesFiles. intros Hsz%bool_decide_eq_true%size_empty_iff.
  apply covers_all_spec. intros q Hq. apply covered_spec.
  eapply (frags_loop_removed o frags 0%nat (list_to_set paths)).
  - by apply elem_of_list_to_set.
  - rewrite (leibniz_equiv _ _ Hsz). apply not_elem_of_empty.
Qed.

(** No file name of the match has two of the paths as prefixes. *)
Definition roots_apart (paths : list string) (frags : Group) : Prop :=
  ∀ frag node q q', frag ∈ frags → node ∈ frag → q ∈ paths → q' ∈ paths →
    HasPrefix (Filename node) q = true → HasPrefix (Filename node) q' = true → q = q'.

Lemma matchesFiles_complete o paths frags :
  (∀ i j, is_iteration (o i j)) →
  roots_apart paths frags →
  covers_all paths frags = true → matchesFiles o paths frags = true.
Proof.
  intros Ho Hap Hcov. unfold matchesFiles.
  apply bool_decide_eq_true, size_empty_iff, equiv_empty. intros q Hq.
  apply (frags_loop_apart o frags 0%nat (list_to_set paths)) in Hq as [Hq Hnone]; [|done|].
  - destruct Hnone. apply covered_spec. rewrite covers_all_spec in Hcov.
    apply Hcov. by apply elem_of_list_to_set in Hq.
  - intros f n q1 q2 Hf Hn Hq1%elem_of_list_to_set Hq2%elem_of_list_to_set.
    by apply (Hap f n q1 q2).
Qed.

(** A node takes at most one path out of [pathMap]. *)
Lemma range_delete_size o fn pm : (size pm ≤ S (size (range_delete o fn pm)))%nat.
Proof.
  unfold range_delete. destruct (find _ _) as [p|]; [|lia].
  assert (pm ⊆ pm ∖ {[p]} ∪ {[p]}) as Hsub.
  { intros q Hq. destruct (decide (q = p)); set_solver. }
  apply subseteq_size in Hsub.
  rewrite size_union, size_singleton in Hsub by set_solver. lia.
Qed.

Lemma nodes_loop_size o frag : ∀ j pm,
  (size pm ≤ length frag + size (nodes_loop o j frag pm))%nat.
Proof.
  induction frag as [|node rest IH]; intros j pm; simpl; [lia|].
  specialize (IH (S j) (range_delete (o j) (Filename node) pm)).
  pose proof (range_delete_size (o j) (Filename node) pm). lia.
Qed.

Lemma frags_loop_size o frags : ∀ i pm,
  (size pm ≤ length (concat frags) + size (frags_loop o i frags pm))%nat.
Proof.
  induction frags as [|frag rest IH]; intros i pm; simpl; [lia|].
  case_decide; [|lia]. rewrite length_app.
  specialize (IH (S i) (nodes_loop (o i) 0 frag pm)).
  pose proof (nodes_loop_size (o i) frag 0%nat pm). lia.
Qed.

(** So a match passes the filter only with at least as many nodes as there
    are distinct paths. *)
Lemma matchesFiles_nodes o paths frags :
  matchesFiles o paths frags = true →
  (size (list_to_set paths : gset string) ≤ length (concat frags))%nat.
Proof.
  unfold matchesFiles. intros Hsz%bool_decide_eq_true.
  pose proof (frags_loop_size o frags 0%nat (list_to_set paths)). lia.
Qed.

Lemma covered_nonempty frags q : covered frags q = true → (0 < length frags)%nat.
Proof. destruct frags; [done|simpl; lia]. Qed.

Lemma emits_sound o paths m :
  emits o paths m = true →
  (0 < length (Frags m))%nat ∧ covers_all paths (Frags m) = true.
Proof.
  unfold emits. intros [Hlen Hm]%andb_true_iff.
  split; [by apply bool_decide_eq_true in Hlen|by eapply matchesFiles_sound].
Qed.

Lemma emits_complete o paths m :
  (∀ i j, is_iteration (o i j)) →
  paths ≠ [] →
  roots_apart paths (Frags m) →
  covers_all paths (Frags m) = true → emits o paths m = true.
Proof.
  intros Ho Hne Hap Hcov. unfold emits. apply andb_true_iff. split.
  - apply bool_decide_eq_true. destruct paths as [|q paths]; [done|].
    simpl in Hcov. apply andb_true_iff in Hcov as [Hq _]. by eapply covered_nonempty.
  - by apply matchesFiles_complete.
Qed.

(** The matches sent on [duplChan] are the extracted matches that pass
    [emits], in the order of arrival. *)
Lemma findDuplicates_from_filter {RawMatch} (FSU : list Node → RawMatch → Z → Match)
    o paths data threshold (keep : Match → bool) mchan : ∀ n,
  (∀ n m, emits (o n) paths m = keep m) →
  findDuplicates_from FSU o n paths data threshold mchan
  = List.filter keep ((λ m, FSU data m threshold) <$> mchan).
Proof.
  intros n Hkeep. revert n.
  induction mchan as [|m rest IH]; intros n; simpl; [done|].
  rewrite Hkeep, IH. by destruct (keep _).
Qed.

Lemma findDuplicates_from_sent {RawMatch} (FSU : list Node → RawMatch → Z → Match)
    o paths data threshold mchan : ∀ n sent,
  sent ∈ findDuplicates_from FSU o n paths data threshold mchan →
  ∃ k m, mchan !! k = Some m ∧ sent = FSU data m threshold
         ∧ emits (o (n + k)%nat) paths sent = true.
Proof.
  induction mchan as [|m rest IH]; intros n sent; simpl; [by intros ?%elem_of_nil|].
  intros [Hin|Hin]%elem_of_app.
  - destruct (emits (o n) paths _) eqn:He; [|by apply elem_of_nil in Hin].
    apply list_elem_of_singleton in Hin as ->.
    exists 0%nat, m. by rewrite Nat.add_0_r.
  - destruct (IH _ _ Hin) as (k & m' & Hk & -> & He).
    exists (S k), m'. by rewrite Nat.add_succ_r.
Qed.

Lemma roots_apart_single root frags : roots_apart [root] frags.
Proof.
  intros frag node q q' _ _ Hq Hq' _ _.
  apply list_elem_of_singleton in Hq, Hq'. congruence.
Qed.

Lemma emits_single o root m :
  (∀ i j, is_iteration (o i j)) →
  emits o [root] m = covered (Frags m) root.
Proof.
  intros Ho. destruct (covered (Frags m) root) eqn:Hc.
  - apply emits_complete; [done|done|apply roots_apart_single|].
    unfold covers_all. simpl. by rewrite Hc.
  - destruct (emits o [root] m) eqn:He; [|done].
    apply emits_sound in He as [_ Hcov]. unfold covers_all in Hcov. simpl in Hcov.
    rewrite Hc in Hcov. done.
Qed.

(** The order of iteration can decide whether a match is sent: with the
    paths [a] and [a/b], a node under [a/b] may take either of them out. *)
Lemma emits_depends_on_order :
  let paths := ["a"; "a/b"] in
  let m := mkMatch "h" [[mkNode 7 "a/b/x.go" 10 20 1]; [mkNode 7 "a/c/y.go" 30 40 1]] in
  let ascending : nat → nat → RangeOrder := λ _ _, merge_sort String.le in
  let descending : nat → nat → RangeOrder := λ _ _ keys, reverse (merge_sort String.le keys) in
  (∀ i j, is_iteration (ascending i j)) ∧ (∀ i j, is_iteration (descending i j)) ∧
  emits ascending paths m = false ∧ emits descending paths m = true.
Proof.
  intros paths m ascending descending. split; [|split].
  - intros i j keys. apply merge_sort_Permutation.
  - intros i j keys. unfold descending. by rewrite reverse_Permutation, merge_sort_Permutation.
  - split; vm_compute; reflexivity.
Qed.

(** C3, as stated, fails: three nested paths are all covered by a match of
    two one-node fragments, and yet the match is sent under no order of
    iteration, since each node takes at most one path out of [pathMap]. *)
Lemma emits_iff_covers_counterexample :
  let paths := ["src"; "src/"; "src/pkg"] in
  let m := mkMatch "h" [[mkNode 7 "src/pkg/a.go" 10 20 1];
                        [mkNode 7 "src/pkg/b.go" 30 40 1]] in
  paths ≠ [] ∧ covers_all paths (Frags m) = true ∧
  ∀ o, emits o paths m = false.
Proof.
  intros paths m. split; [done|]. split; [vm_compute; reflexivity|].
  intros o. destruct (emits o paths m) eqn:He; [|done].
  unfold emits in He. apply andb_true_iff in He as [_ Hm].
  apply matchesFiles_nodes in Hm. vm_compute in Hm. lia.
Qed.

(** C3 (amended): when root paths were given, a match is sent on the output
    channel only if every root path is a prefix of the file name of some
    node of some fragment; and when no file name of the match has two of the
    root paths as prefixes, it is sent if and only if that is so. *)
Theorem emits_only_if_covers o paths m :
  paths ≠ [] →
  (emits o paths m = true → covers_all paths (Frags m) = true) ∧
  ((∀ i j, is_iteration (o i j)) → roots_apart paths (Frags m) →
   (emits o paths m = true ↔ covers_all paths (Frags m) = true)).
Proof.
  intros Hne. split; [apply emits_sound|].
  intros Ho Hap. split; [apply emits_sound|by apply emits_complete].
Qed.

Lemma emits_only_if_covers_witness :
  let o : nat → nat → RangeOrder := λ _ _ keys, keys in
  let paths := ["app"; "lib"] in
  let m := mkMatch "h" [[mkNode 7 "app/a.go" 10 20 1]; [mkNode 7 "lib/b.go" 30 40 1]] in
  emits o paths m = true ↔ covers_all paths (Frags m) = true.
Proof.
  intros o paths m.
  apply (proj2 (emits_only_if_covers o paths m ltac:(discriminate))).
  - intros i j keys. reflexivity.
  - intros frag node q q' Hf Hn Hq Hq' H1 H2. subst paths m. simpl in Hf.
    set_unfold. destruct Hf as [->|[->|[]]]; set_unfold;
      destruct Hn as [->|[]]; destruct Hq as [->|[->|[]]]; destruct Hq' as [->|[->|[]]];
      first [reflexivity | discriminate].
Defined.

(** C9: without path arguments [paths] stays [["."]], and the filter is
    applied all the same: of the extracted matches, those sent on the output
    channel are exactly the ones in which some node of some fragment has a
    file name that starts with a dot; a match without such a node is
    suppressed. *)
Theorem default_paths_filter {RawMatch} (FindSyntaxUnits : list Node → RawMatch → Z → Match)
    o data threshold mchan :
  (∀ n i j, is_iteration (o n i j)) →
  effective_paths [] = ["."] ∧
  findDuplicates FindSyntaxUnits o (effective_paths []) data threshold mchan
  = List.filter (λ m, covered (Frags m) ".")
      ((λ m, FindSyntaxUnits data m threshold) <$> mchan).
Proof.
  intros Ho. split; [done|].
  unfold findDuplicates. apply findDuplicates_from_filter.
  intros n m. by apply emits_single.
Qed.

Lemma default_paths_filter_witness :
  let FSU : list Node → list Node → Z → Match := λ _ frag _, mkMatch "h" [frag; frag] in
  let o : nat → nat → nat → RangeOrder := λ _ _ _ keys, keys in
  findDuplicates FSU o (effective_paths []) [] 1
    [[mkNode 7 "pkg/a.go" 10 20 1]; [mkNode 7 "./b.go" 30 40 1]]
  = [mkMatch "h" [[mkNode 7 "./b.go" 30 40 1]; [mkNode 7 "./b.go" 30 40 1]]].
Proof.
  intros FSU o.
  rewrite (proj2 (default_paths_filter FSU o [] 1 _ (λ _ _ _ keys, Permutation_refl keys))).
  reflexivity.
Defined.

(** ** The thresholds queried by [main] *)

Lemma wrap_int z : is_int z → wrap z = z.
Proof.
  unfold is_int, wrap, int_min, int_max. intros Hz.
  rewrite Z.mod_small; lia.
Qed.

Lemma descending_nil from to : from < to → descending from to = [].
Proof.
  intros Hlt. unfold descending.
  by replace (Z.to_nat (from - to + 1)) with 0%nat by lia.
Qed.

Lemma descending_cons from to :
  to ≤ from → descending from to = from :: descending (from - 1) to.
Proof.
  intros Hle. unfold descending.
  replace (Z.to_nat (from - to + 1)) with (S (Z.to_nat (from - 1 - to + 1))) by lia.
  cbn [seq fmap list_fmap]. f_equal; [lia|].
  rewrite <- fmap_S_seq, <- list_fmap_compose.
  apply list_fmap_ext. intros _ k _. simpl. lia.
Qed.

Lemma elem_of_descending from to i : i ∈ descending from to ↔ to ≤ i ≤ from.
Proof.
  unfold descending. rewrite list_elem_of_fmap. split.
  - intros (k & -> & Hk%elem_of_seq). lia.
  - intros Hi. exists (Z.to_nat (from - i)). rewrite elem_of_seq. lia.
Qed.

Lemma descending_sorted to : ∀ n from,
  Z.to_nat (from - to + 1) = n → StronglySorted Z.gt (descending from to).
Proof.
  induction n as [|n IH]; intros from Hn.
  - unfold descending. rewrite Hn. constructor.
  - rewrite descending_cons by lia. constructor; [apply IH; lia|].
    apply Forall_forall. intros i Hi%elem_of_descending. lia.
Qed.

Lemma threshold_loop_0 i to : (threshold_loop 0 i to).1 = [].
Proof. simpl. by case_decide. Qed.

(** The first [from - to + 1] iterations query [from], ..., [to]. *)
Lemma threshold_loop_prefix to : ∀ n from,
  is_int from → is_int to → Z.of_nat n = from - to + 1 →
  (threshold_loop n from to).1 = query_events (descending from to).
Proof.
  induction n as [|n IH]; intros from Hfrom Hto Hn.
  - rewrite threshold_loop_0, descending_nil by lia. done.
  - cbn [threshold_loop]. rewrite decide_True by lia.
    rewrite descending_cons by lia.
    destruct (threshold_loop n (wrap (from - 1)) to) as [evs chans] eqn:Hloop.
    cbn. do 2 f_equal.
    change evs with (evs, chans).1. rewrite <- Hloop.
    destruct n as [|n'].
    + rewrite threshold_loop_0, descending_nil by lia. done.
    + unfold is_int in *. rewrite wrap_int by (unfold is_int; lia).
      apply IH; unfold is_int; lia.
Qed.

(** Unless [to] is the least [int], the loop is left after them. *)
Lemma threshold_loop_exit to : ∀ n from fuel,
  is_int from → is_int to → int_min < to → Z.of_nat n = from - to + 1 →
  (n < fuel)%nat →
  threshold_loop fuel from to
  = (query_events (descending from to), Some (descending from to)).
Proof.
  induction n as [|n IH]; intros from fuel Hfrom Hto Hmin Hn Hfuel.
  - rewrite descending_nil by lia. destruct fuel; simpl; by rewrite decide_False by lia.
  - destruct fuel as [|fuel]; [lia|]. cbn [threshold_loop].
    rewrite decide_True by lia. unfold is_int in *.
    rewrite wrap_int by (unfold is_int; lia).
    rewrite (IH (from - 1) fuel) by (unfold is_int; lia).
    by rewrite (descending_cons from to) by lia.
Qed.

Lemma build_events_start fl :
  build_events fl
  = start_events fl ++ [Done; Update sentinel] ++ if_verbose fl "Searching for clones"
    ++ [NewPrinter (printer_kind fl)].
Proof. unfold build_events, start_events. by rewrite <- !app_assoc. Qed.

(** What [main] does once the feed has closed the channel. *)
Lemma main_closed fs tokens fl perr fuel :
  html fl && plumbing fl = false →
  (feed fs fl (effective_paths (Args fl)) tokens).2 = Closed →
  main fs tokens fl perr fuel
  = match threshold_loop fuel (fromThreshold fl) (toThreshold fl) with
    | (evs, None) => (build_events fl ++ evs, Running)
    | (evs, Some chans) =>
      (build_events fl ++ evs ++ (print_events perr chans).1, (print_events perr chans).2)
    end.
Proof.
  intros Hout Hfed. unfold main. rewrite Hout, Hfed.
  destruct (threshold_loop _ _ _) as [evs [chans|]]; [|done].
  by destruct (print_events perr chans).
Qed.

Example main_default :
  main empty_tree [] (mkFlags false false 15 15 false false false []) None 2
  = ([Parse (CrawlPaths ["."]); BuildTree; Done; Update sentinel; NewPrinter Text;
      FindDuplOver 15; GoFindDuplicates 15; PrintDupls [15]], Returned).
Proof. reflexivity. Qed.

Example main_missing_path :
  let fs := mkFileSystem
    (λ path, if bool_decide (path = "nosuch")
             then inr "lstat nosuch: no such file or directory"
             else inl (mkFileInfo true path))
    (λ _, []) in
  main fs [] (mkFlags false false 15 15 false false false ["pkg"; "nosuch"; "other"]) None 2
  = ([Parse (CrawlPaths ["pkg"; "nosuch"; "other"]); BuildTree;
      Fatal "lstat nosuch: no such file or directory"], Exited 1).
Proof. reflexivity. Qed.

(** C6: with [from >= to] the loop of [main] goes through the thresholds
    [from], [from - 1], ..., [to]: every integer of the interval, in
    descending order, each with one query of the tree and one extractor.
    The loop is then left and the channels are handed to [printDupls] in
    that order (the one exception is the least [int] as [to], for which the
    condition [i >= to] never fails). *)
Theorem thresholds_queried_descending (fl : Flags) (perr : option string) :
  let from := fromThreshold fl in
  let to := toThreshold fl in
  let n := Z.to_nat (from - to + 1) in
  is_int from → is_int to → from >= to →
  (∀ i, i ∈ descending from to ↔ to ≤ i ≤ from) ∧
  StronglySorted Z.gt (descending from to) ∧
  (threshold_loop n from to).1 = query_events (descending from to) ∧
  (int_min < to → ∀ fuel, (n < fuel)%nat →
     threshold_loop fuel from to
     = (query_events (descending from to), Some (descending from to)) ∧
     (html fl && plumbing fl = false →
      ∀ fs tokens, (feed fs fl (effective_paths (Args fl)) tokens).2 = Closed →
      main fs tokens fl perr fuel
      = (build_events fl ++ query_events (descending from to)
           ++ (print_events perr (descending from to)).1,
         (print_events perr (descending from to)).2))).
Proof.
  intros from to n Hfrom Hto Hge.
  split; [apply elem_of_descending|]. split; [by eapply descending_sorted|].
  split; [apply threshold_loop_prefix; [done..|lia]|].
  intros Hmin fuel Hfuel.
  assert (threshold_loop fuel from to
          = (query_events (descending from to), Some (descending from to))) as Hloop.
  { apply (threshold_loop_exit to n); [done..|lia|done]. }
  split; [done|]. intros Hout fs tokens Hfed.
  rewrite main_closed by done. fold from to. by rewrite Hloop.
Qed.

Lemma thresholds_queried_descending_witness :
  main empty_tree [] (mkFlags false false 17 15 false false false []) None 4
  = ([Parse (CrawlPaths ["."]); BuildTree; Done; Update sentinel; NewPrinter Text;
      FindDuplOver 17; GoFindDuplicates 17; FindDuplOver 16; GoFindDuplicates 16;
      FindDuplOver 15; GoFindDuplicates 15; PrintDupls [17; 16; 15]], Returned).
Proof.
  assert (is_int 17 ∧ is_int 15) as [H17 H15] by (unfold is_int, int_min, int_max; lia).
  destruct (thresholds_queried_descending
              (mkFlags false false 17 15 false false false []) None
              H17 H15 ltac:(simpl; lia))
    as (_ & _ & _ & Hexit).
  destruct (Hexit ltac:(unfold int_min; simpl; lia) 4%nat ltac:(simpl; lia)) as [_ Hmain].
  rewrite (Hmain eq_refl empty_tree [] eq_refl). reflexivity.
Defined.

(** ** What [main] checks of the configuration *)

(** C2, as stated, fails: with [to_threshold > from_threshold] the files are
    handed to the parser, the tree is built and [main] returns normally;
    with thresholds that are not positive the tree is queried. *)
Lemma invalid_thresholds_counterexample :
  let inverted := mkFlags false false 15 20 false false false [] in
  let nonpositive := mkFlags false false 0 (-1) false false false [] in
  toThreshold inverted > fromThreshold inverted ∧
  main empty_tree [] inverted None 1
  = ([Parse (CrawlPaths ["."]); BuildTree; Done; Update sentinel; NewPrinter Text;
      PrintDupls []], Returned) ∧
  fromThreshold nonpositive ≤ 0 ∧ toThreshold nonpositive ≤ 0 ∧
  main empty_tree [] nonpositive None 3
  = ([Parse (CrawlPaths ["."]); BuildTree; Done; Update sentinel; NewPrinter Text;
      FindDuplOver 0; GoFindDuplicates 0; FindDuplOver (-1); GoFindDuplicates (-1);
      PrintDupls [0; -1]], Returned).
Proof. repeat split; (reflexivity || (simpl; lia)). Qed.

Lemma threshold_loop_empty fuel i to :
  to > i → threshold_loop fuel i to = ([], Some []).
Proof. intros Hgt. destruct fuel; simpl; by rewrite decide_False by lia. Qed.

(** C2 (amended): [-html] together with [-plumbing] is rejected: the
    program fails fatally before the pipeline starts, and nothing is parsed,
    built or queried.  The thresholds are not checked: with
    [to_threshold > from_threshold] or a threshold that is not positive,
    and a feed of file names that closes normally, [job.Parse] and
    [job.BuildTree] are called and [main] gets past the receive on [done];
    with [to_threshold > from_threshold] no threshold is then queried and
    [printDupls] is called without channels. *)
Theorem output_conflict_is_fatal (fs : FileSystem) (tokens : list string)
    (fl : Flags) (perr : option string) (fuel : nat) :
  (html fl && plumbing fl = true →
   main fs tokens fl perr fuel
   = ([Fatal "you can have either plumbing or HTML output"], Exited 1)) ∧
  (html fl && plumbing fl = false →
   toThreshold fl > fromThreshold fl ∨ fromThreshold fl ≤ 0 ∨ toThreshold fl ≤ 0 →
   (feed fs fl (effective_paths (Args fl)) tokens).2 = Closed →
   (∃ evs exit, main fs tokens fl perr fuel = (build_events fl ++ evs, exit)) ∧
   Parse (filesFeed fl (effective_paths (Args fl))) ∈ build_events fl ∧
   BuildTree ∈ build_events fl ∧
   (toThreshold fl > fromThreshold fl →
    main fs tokens fl perr fuel
    = (build_events fl ++ (print_events perr []).1, (print_events perr []).2))).
Proof.
  split; intros Hout; [unfold main; by rewrite Hout|].
  intros _ Hfed. rewrite main_closed by done. split; [|split; [|split]].
  - destruct (threshold_loop _ _ _) as [evs [chans|]]; eauto.
  - unfold build_events. set_solver.
  - unfold build_events. set_solver.
  - intros Hgt. by rewrite threshold_loop_empty by done.
Qed.

Lemma output_conflict_is_fatal_witness :
  main empty_tree [] (mkFlags false false 15 15 false true true []) None 0
  = ([Fatal "you can have either plumbing or HTML output"], Exited 1) ∧
  main empty_tree [] (mkFlags false false 15 20 false false false ["pkg"]) None 0
  = ([Parse (CrawlPaths ["pkg"]); BuildTree; Done; Update sentinel; NewPrinter Text;
      PrintDupls []], Returned).
Proof.
  split.
  - apply (proj1 (output_conflict_is_fatal empty_tree [] _ None 0)). reflexivity.
  - destruct (proj2 (output_conflict_is_fatal empty_tree []
                       (mkFlags false false 15 20 false false false ["pkg"]) None 0)
                eq_refl ltac:(left; simpl; lia) eq_refl) as (_ & _ & _ & Hmain).
    rewrite Hmain by (simpl; lia). reflexivity.
Defined.

(** ** [printDupls]: the order of the keys *)

(** [String.le] is the byte-wise lexicographic order of Go's [<=] on
    strings. *)
Lemma String_le_nil s : String.le "" s.
Proof. by destruct s. Qed.

Lemma String_le_cons a s b t :
  String.le (String a s) (String b t) ↔
  (N_of_ascii a < N_of_ascii b)%N ∨ (a = b ∧ String.le s t).
Proof.
  unfold String.le, String.leb. simpl. unfold Ascii.compare.
  destruct (N.compare_spec (N_of_ascii a) (N_of_ascii b)) as [Heq|Hlt|Hgt].
  - assert (a = b) as -> by (rewrite <- (ascii_N_embedding a), Heq; apply ascii_N_embedding).
    split; [by right|]. intros [Hlt|[_ H]]; [lia|done].
  - split; [by left|done].
  - split; [done|]. intros [Hlt|[-> _]]; lia.
Qed.

Lemma sort_Strings_sorted keys : Sorted String.le (sort_Strings keys).
Proof. apply Sorted_merge_sort, _. Qed.

Lemma sort_Strings_perm keys : sort_Strings keys ≡ₚ keys.
Proof. apply merge_sort_Permutation. Qed.

(** The sorted slice does not depend on the order in which the keys were
    collected. *)
Lemma sort_Strings_unique keys keys' :
  keys ≡ₚ keys' → sort_Strings keys = sort_Strings keys'.
Proof.
  intros Hp. apply (Sorted_unique String.le); [apply sort_Strings_sorted..|].
  by rewrite !sort_Strings_perm.
Qed.

Lemma sorted_keys_order o o' groups :
  is_iteration o → is_iteration o' → sorted_keys o groups = sorted_keys o' groups.
Proof.
  intros Ho Ho'. unfold sorted_keys. apply sort_Strings_unique.
  by rewrite (Ho _), (Ho' _).
Qed.

Lemma elem_of_sorted_keys o groups k :
  is_iteration o → k ∈ sorted_keys o groups ↔ is_Some (groups !! k).
Proof.
  intros Ho. unfold sorted_keys.
  by rewrite sort_Strings_perm, (Ho _), elem_of_elements, elem_of_dom.
Qed.

(** ** [printDupls]: the calls of the printer *)

Section Printing.
Context `{Printer P}.

(** Recording the calls does not change what the printer does. *)
Lemma print_groups_recording groups keys : ∀ (p : P) log,
  let r := print_groups groups keys (p, log) in
  (r.1.1, r.2) = print_groups groups keys p.
Proof.
  induction keys as [|k rest IH]; intros p log; simpl.
  - by destruct (PrintFooter p) as [p' [err|]].
  - destruct (unique _) as [uniq|]; [|done].
    case_decide; [|apply IH].
    destruct (PrintClones uniq p) as [p' [err|]]; simpl; [done|apply IH].
Qed.

Lemma printDupls_recording o (p : P) log duplChans :
  let r := printDupls o (p, log) duplChans in
  (r.1.1, r.2) = printDupls o p duplChans.
Proof.
  unfold printDupls. simpl.
  destruct (PrintHeader p) as [p' [err|]]; simpl; [done|].
  apply print_groups_recording.
Qed.

(** The loop passes the groups of a prefix of the keys, each after
    deduplication and only if two fragments or more are left; it gets to
    the end of the keys and to the footer unless it stops early. *)
Lemma print_groups_log groups keys : ∀ (p : P) log,
  let r := print_groups groups keys (p, log) in
  ∃ ks footer,
    ks `prefix_of` keys ∧
    r.1.2 = log ++ (CallClones <$> omap (to_print groups) ks) ++ footer ∧
    (footer = [] ∨ footer = [CallFooter]) ∧
    (r.2 = Nil → ks = keys ∧ footer = [CallFooter]).
Proof.
  induction keys as [|k rest IH]; intros p log; simpl.
  - exists [], [CallFooter].
    destruct (PrintFooter p) as [p' [err|]]; simpl; (split; [done|]); auto.
  - assert (∀ ks, omap (to_print groups) (k :: ks)
                  = from_option (λ g, [g]) [] (to_print groups k) ++ omap (to_print groups) ks)
      as Homap by (intros ks; simpl; by destruct (to_print groups k)).
    pose proof (eq_refl (to_print groups k)) as Hk. unfold to_print at 2 in Hk.
    destruct (unique _) as [uniq|] eqn:Hu.
    + case_decide as Hlen.
      * destruct (PrintClones uniq p) as [p' [err|]] eqn:Hpc; simpl.
        -- exists [k], []. rewrite Homap, Hk. simpl.
           split; [by apply prefix_cons, prefix_nil|]. split; [done|]. split; [by left|done].
        -- destruct (IH p' (log ++ [CallClones uniq])) as (ks & footer & Hks & Hlog & Hf & Hnil).
           exists (k :: ks), footer. split; [by apply prefix_cons|].
           split; [|split; [done|]].
           ++ simpl in *. rewrite Hlog, Homap, Hk. simpl. by rewrite <- app_assoc.
           ++ intros Hr. destruct (Hnil Hr) as [-> ->]. done.
      * destruct (IH p log) as (ks & footer & Hks & Hlog & Hf & Hnil).
        exists (k :: ks), footer. split; [by apply prefix_cons|].
        split; [|split; [done|]].
        -- simpl in *. by rewrite Hlog, Homap, Hk.
        -- intros Hr. destruct (Hnil Hr) as [-> ->]. done.
    + exists [], []. simpl. rewrite app_nil_r.
      split; [apply prefix_nil|]. split; [done|]. split; [by left|done].
Qed.

Lemma printDupls_log o (p : P) duplChans :
  let groups := collect duplChans in
  let r := printDupls o (p, []) duplChans in
  ∃ ks footer,
    ks `prefix_of` sorted_keys o groups ∧
    r.1.2 = CallHeader :: (CallClones <$> omap (to_print groups) ks) ++ footer ∧
    (footer = [] ∨ footer = [CallFooter]) ∧
    (r.2 = Nil → ks = sorted_keys o groups ∧ footer = [CallFooter]).
Proof.
  intros groups. unfold printDupls. fold groups. simpl.
  destruct (PrintHeader p) as [p' [err|]] eqn:Hh; simpl.
  - exists [], []. split; [apply prefix_nil|]. split; [done|]. split; [by left|done].
  - apply (print_groups_log groups (sorted_keys o groups) p' [CallHeader]).
Qed.

End Printing.

Lemma printed_CallClones groups_printed :
  printed (CallClones <$> groups_printed) = groups_printed.
Proof.
  induction groups_printed as [|g l IH]; [done|].
  change (g :: printed (CallClones <$> l) = g :: l). by rewrite IH.
Qed.

Lemma printed_clones groups_printed footer :
  footer = [] ∨ footer = [CallFooter] →
  printed (CallHeader :: (CallClones <$> groups_printed) ++ footer) = groups_printed.
Proof.
  intros Hf.
  change (printed ((CallClones <$> groups_printed) ++ footer) = groups_printed).
  unfold printed. rewrite omap_app. fold (printed (CallClones <$> groups_printed)).
  rewrite printed_CallClones. destruct Hf as [->| ->]; apply app_nil_r.
Qed.

Lemma to_print_Some groups k dups :
  to_print groups k = Some dups →
  (2 ≤ length dups)%nat ∧
  ∃ group, groups !! k = Some group ∧ unique group = Some dups.
Proof.
  unfold to_print. destruct (groups !! k) as [group|] eqn:Hk; simpl.
  - destruct (unique group) as [uniq|] eqn:Hu; [|done].
    case_decide; [|done]. intros [= <-]. split; [lia|eauto].
  - done.
Qed.

Example printDupls_ex :
  let a := [mkNode 1 "a.go" 10 20 0] in
  let b := [mkNode 1 "b.go" 10 20 0] in
  let c := [mkNode 5 "c.go" 30 50 0] in
  printDupls (λ keys, keys) (tt, [])
    [[mkMatch "h2" [c]; mkMatch "h1" [a; b]]; [mkMatch "h1" [a]; mkMatch "h0" [b; c; b; a]]]
  = ((tt, [CallHeader; CallClones [b; c; a]; CallClones [a; b]; CallFooter]), Nil).
Proof. vm_compute. reflexivity. Qed.

(** C5: every group passed to the printer has at least two fragments; it is
    the deduplicated group of some key of the map, and a group left with
    fewer than two fragments by the deduplication is never passed. *)
Theorem printed_groups_have_two `{Printer P} (o : RangeOrder) (p : P)
    (duplChans : list (list Match)) (dups : Group) :
  dups ∈ printed (printDupls o (p, []) duplChans).1.2 →
  (2 ≤ length dups)%nat ∧
  (∃ k group, collect duplChans !! k = Some group ∧ unique group = Some dups) ∧
  (∀ uniq : Group, (length uniq < 2)%nat →
     uniq ∉ printed (printDupls o (p, []) duplChans).1.2).
Proof.
  destruct (printDupls_log o p duplChans) as (ks & footer & _ & Hlog & Hf & _).
  simpl in Hlog. rewrite Hlog, printed_clones by done.
  assert (∀ g, g ∈ omap (to_print (collect duplChans)) ks →
               (2 ≤ length g)%nat ∧
               ∃ k group, collect duplChans !! k = Some group ∧ unique group = Some g)
    as Hall.
  { intros g (k & _ & Hk)%list_elem_of_omap.
    apply to_print_Some in Hk as [Hlen (group & Hg & Hu)]. eauto. }
  intros Hin. destruct (Hall _ Hin) as [Hlen Hk]. split; [done|]. split; [done|].
  intros uniq Hlt Huniq. apply Hall in Huniq as [Hlen' _]. lia.
Qed.

Lemma printed_groups_have_two_witness :
  let a := [mkNode 1 "a.go" 10 20 0] in
  let b := [mkNode 1 "b.go" 10 20 0] in
  let c := [mkNode 5 "c.go" 30 50 0] in
  let duplChans := [[mkMatch "h2" [c]; mkMatch "h1" [a; b]]; [mkMatch "h1" [a]]] in
  printed (printDupls (λ keys, keys) (tt, []) duplChans).1.2 = [[a; b]] ∧
  (2 ≤ length [a; b])%nat.
Proof.
  intros a b c duplChans.
  assert (printed (printDupls (λ keys, keys) (tt, []) duplChans).1.2 = [[a; b]]) as Hp
    by (vm_compute; reflexivity).
  split; [exact Hp|].
  apply (printed_groups_have_two (λ keys, keys) tt duplChans [a; b]).
  rewrite Hp. apply list_elem_of_singleton. reflexivity.
Defined.

(** C7: [printDupls] goes through the keys of the group map in ascending
    lexicographic order, whatever the order in which the map hands them
    out: after the header the printer receives the groups of a prefix of the
    sorted keys, in that order, which is all of them followed by the footer
    when nil is returned; and two runs with the same group map make the
    same calls with the same result. *)
Theorem printDupls_order_deterministic `{Printer P} (o o' : RangeOrder) (p : P)
    (duplChans duplChans' : list (list Match)) :
  is_iteration o → is_iteration o' →
  collect duplChans = collect duplChans' →
  let groups := collect duplChans in
  Sorted String.le (sorted_keys o groups) ∧
  (∀ k, k ∈ sorted_keys o groups ↔ is_Some (groups !! k)) ∧
  (∃ ks footer,
     ks `prefix_of` sorted_keys o groups ∧
     (printDupls o (p, []) duplChans).1.2
     = CallHeader :: (CallClones <$> omap (to_print groups) ks) ++ footer ∧
     (footer = [] ∨ footer = [CallFooter]) ∧
     printed (printDupls o (p, []) duplChans).1.2 = omap (to_print groups) ks ∧
     ((printDupls o (p, []) duplChans).2 = Nil →
      ks = sorted_keys o groups ∧ footer = [CallFooter])) ∧
  printDupls o (p, []) duplChans = printDupls o' (p, []) duplChans'.
Proof.
  intros Ho Ho' Hsame groups.
  split; [apply sort_Strings_sorted|].
  split; [intros k; by apply elem_of_sorted_keys|]. split.
  - destruct (printDupls_log o p duplChans) as (ks & footer & Hks & Hlog & Hf & Hnil).
    exists ks, footer. split; [done|]. simpl in Hlog. split; [done|].
    split; [done|]. split; [by rewrite Hlog, printed_clones|done].
  - unfold printDupls. by rewrite <- Hsame, (sorted_keys_order o o').
Qed.

Lemma printDupls_order_deterministic_witness :
  let a := [mkNode 1 "a.go" 10 20 0] in
  let b := [mkNode 1 "b.go" 10 20 0] in
  let c := [mkNode 5 "c.go" 30 50 0] in
  let run1 := [[mkMatch "h2" [c; a]; mkMatch "h1" [a; b]]] in
  let run2 := [[mkMatch "h1" [a; b]]; [mkMatch "h2" [c; a]]] in
  printDupls (λ keys, keys) (tt, []) run1 = printDupls reverse (tt, []) run2 ∧
  printed (printDupls (λ keys, keys) (tt, []) run1).1.2 = [[a; b]; [c; a]].
Proof.
  intros a b c run1 run2.
  destruct (printDupls_order_deterministic (λ keys, keys) reverse tt run1 run2)
    as (_ & _ & (ks & footer & _ & _ & _ & Hprinted & Hnil) & Hsame).
  - intros keys. reflexivity.
  - intros keys. apply reverse_Permutation.
  - vm_compute. reflexivity.
  - split; [exact Hsame|].
    destruct Hnil as [-> _]; [vm_compute; reflexivity|].
    rewrite Hprinted. vm_compute. reflexivity.
Defined.

(** ** [crawlPaths]: errors of the file system *)

Example crawlPaths_ex :
  let fs := mkFileSystem
    (λ path, inl (mkFileInfo (bool_decide (path = "pkg")) path))
    (λ _, [mkVisit "pkg" (Some (mkFileInfo true "pkg")) None;
           mkVisit "pkg/a.go" (Some (mkFileInfo false "a.go")) None;
           mkVisit "pkg/README" (Some (mkFileInfo false "README")) None;
           mkVisit "pkg/vendor/x/b.go" (Some (mkFileInfo false "b.go")) None;
           mkVisit "pkg/vendor/gone" None (Some "lstat pkg/vendor/gone: no such file")]) in
  crawlPaths fs false ["main.txt"; "pkg"] = (["main.txt"; "pkg/a.go"], Closed) ∧
  crawlPaths fs true ["main.txt"; "pkg"] = (["main.txt"; "pkg/a.go"; "pkg/vendor/x/b.go"], CrawlPanic).
Proof. split; vm_compute; reflexivity. Qed.

(** The walk function returns nil or panics, so the walk returns no error. *)
Lemma Walk_walkFn_no_error vendor vs err : (Walk vs (walkFn vendor)).2 ≠ WalkErr err.
Proof.
  induction vs as [|v rest IH]; simpl; [done|].
  unfold walkFn at 1.
  destruct (negb vendor && _).
  - by destruct (Walk rest (walkFn vendor)).
  - destruct (visit_info v) as [info|]; [|done].
    destruct (negb (IsDir info) && _); by destruct (Walk rest (walkFn vendor)).
Qed.

Lemma crawlPaths_app fs vendor before after :
  crawlPaths fs vendor (before ++ after)
  = match crawlPaths fs vendor before with
    | (sent, Closed) =>
      let '(sent', e) := crawlPaths fs vendor after in (sent ++ sent', e)
    | r => r
    end.
Proof.
  induction before as [|path rest IH]; simpl.
  - by destruct (crawlPaths fs vendor after).
  - destruct (Lstat fs path) as [info|err]; [|done].
    destruct (negb (IsDir info)).
    + rewrite IH. destruct (crawlPaths fs vendor rest) as [sent []]; [|done..].
      by destruct (crawlPaths fs vendor after).
    + destruct (Walk _ _) as [sent []]; [|done..].
      rewrite IH. destruct (crawlPaths fs vendor rest) as [sent1 []]; [|done..].
      destruct (crawlPaths fs vendor after). by rewrite app_assoc.
Qed.

Lemma crawlPaths_fatal fs vendor paths err :
  (crawlPaths fs vendor paths).2 = CrawlFatal err →
  ∃ path, path ∈ paths ∧ Lstat fs path = inr err.
Proof.
  induction paths as [|path rest IH]; simpl; [done|].
  destruct (Lstat fs path) as [info|err'] eqn:Hl.
  - assert ((crawlPaths fs vendor rest).2 = CrawlFatal err →
            ∃ path0, path0 ∈ path :: rest ∧ Lstat fs path0 = inr err) as Hrest.
    { intros (path0 & Hin & H0)%IH. exists path0. split; [by apply elem_of_cons; right|done]. }
    destruct (negb (IsDir info)).
    + destruct (crawlPaths fs vendor rest). done.
    + pose proof (Walk_walkFn_no_error vendor (visits fs path)) as Hw.
      destruct (Walk _ _) as [sent [|err'|]]; simpl in *.
      * destruct (crawlPaths fs vendor rest). done.
      * by destruct (Hw err').
      * done.
  - intros [= ->]. exists path. split; [by apply elem_of_cons; left|done].
Qed.

(** C8, as stated, fails in [crawlPaths]: an [os.Lstat] that fails on the
    first of two given files ends the program, and the second file, which
    is readable, is never sent to the parser. *)
Lemma io_error_is_fatal_counterexample :
  let fs := mkFileSystem
    (λ path, if bool_decide (path = "gone.go")
             then inr "lstat gone.go: no such file or directory"
             else inl (mkFileInfo false path))
    (λ _, []) in
  Lstat fs "ok.go" = inl (mkFileInfo false "ok.go") ∧
  crawlPaths fs false ["gone.go"; "ok.go"]
  = ([], CrawlFatal "lstat gone.go: no such file or directory").
Proof. split; reflexivity. Qed.

(** C8 (amended): in [crawlPaths] an IOError of [os.Lstat] on one of the
    given paths is fatal: [log.Fatal] ends the program after the files of
    the paths before it have been sent, and no file of a later path is
    sent. *)
Theorem lstat_error_is_fatal (fs : FileSystem) (vendor : bool)
    (before after : list string) (path err : string) :
  Lstat fs path = inr err →
  (crawlPaths fs vendor before).2 = Closed →
  crawlPaths fs vendor (before ++ path :: after)
  = ((crawlPaths fs vendor before).1, CrawlFatal err) ∧
  (∀ file, file ∈ (crawlPaths fs vendor (before ++ path :: after)).1 →
     file ∈ (crawlPaths fs vendor before).1).
Proof.
  intros Hl Hclosed.
  assert (crawlPaths fs vendor (before ++ path :: after)
          = ((crawlPaths fs vendor before).1, CrawlFatal err)) as Heq;
    [|split; [done|by rewrite Heq]].
  rewrite crawlPaths_app. destruct (crawlPaths fs vendor before) as [sent e].
  simpl in Hclosed. subst e. simpl. rewrite Hl. by rewrite app_nil_r.
Qed.

Lemma lstat_error_is_fatal_witness :
  let fs := mkFileSystem
    (λ path, if bool_decide (path = "gone.go")
             then inr "lstat gone.go: no such file or directory"
             else inl (mkFileInfo false path))
    (λ _, []) in
  crawlPaths fs false (["first.go"] ++ "gone.go" :: ["ok.go"])
  = (["first.go"], CrawlFatal "lstat gone.go: no such file or directory").
Proof.
  intros fs.
  apply (lstat_error_is_fatal fs false ["first.go"] ["ok.go"] "gone.go"); reflexivity.
Defined.

(** ** File boundaries in the stream of the tree *)

Example fed_stream_ex :
  fed_stream [[mkNode 3 "a.go" 0 5 1; mkNode 4 "a.go" 6 9 1]; [mkNode 3 "b.go" 0 5 1]]
  = [mkNode 3 "a.go" 0 5 1; mkNode 4 "a.go" 6 9 1; mkNode 3 "b.go" 0 5 1; sentinel].
Proof. reflexivity. Qed.











(* ================================================================== *)
(** * Further properties of the driver *)

(** ** [unique] *)

(** [keep_first] looks at [seen] as a set. *)
Lemma keep_first_seen_ext group : ∀ seen seen',
  (∀ k, k ∈ seen ↔ k ∈ seen') → keep_first seen group = keep_first seen' group.
Proof.
  induction group as [|seq rest IH]; intros seen seen' Hext; simpl; [done|].
  destruct (frag_key seq) as [k|]; [|by apply IH].
  destruct (decide (k ∈ seen)) as [Hin|Hnin].
  - rewrite decide_True by (by apply Hext). by apply IH.
  - rewrite decide_False by (by rewrite <- Hext). f_equal. apply IH.
    intros k'. rewrite !elem_of_cons. by rewrite Hext.
Qed.

Lemma keep_first_idemp group : ∀ seen,
  keep_first seen (keep_first seen group) = keep_first seen group.
Proof.
  induction group as [|seq rest IH]; intros seen; simpl; [done|].
  destruct (frag_key seq) as [k|] eqn:Hk; [|by apply IH].
  destruct (decide (k ∈ seen)) as [Hin|Hnin]; [by apply IH|].
  simpl. rewrite Hk, decide_False by done. f_equal. apply IH.
Qed.

(** Nothing is kept of fragments whose starting points have all been seen. *)
Lemma keep_first_all_seen group : ∀ seen,
  (∀ seq k, seq ∈ group → frag_key seq = Some k → k ∈ seen) →
  keep_first seen group = [].
Proof.
  induction group as [|seq rest IH]; intros seen Hseen; simpl; [done|].
  assert (keep_first seen rest = []) as Hrest.
  { apply IH. intros s k Hs. apply Hseen. by apply elem_of_cons; right. }
  destruct (frag_key seq) as [k|] eqn:Hk; [|done].
  rewrite decide_True; [done|]. apply (Hseen seq); [by apply elem_of_cons; left|done].
Qed.

Lemma keep_first_app group : ∀ seen group',
  ∃ seen', (∀ k, k ∈ seen' ↔ k ∈ seen ∨ Some k ∈ frag_key <$> group) ∧
           keep_first seen (group ++ group')
           = keep_first seen group ++ keep_first seen' group'.
Proof.
  induction group as [|seq rest IH]; intros seen group'; simpl.
  - exists seen. split; [|done]. intros k. rewrite elem_of_nil. tauto.
  - destruct (frag_key seq) as [k|] eqn:Hk.
    + destruct (decide (k ∈ seen)) as [Hin|Hnin].
      * destruct (IH seen group') as (seen' & Hs & ->). exists seen'. split; [|done].
        intros k'. rewrite Hs, elem_of_cons. split; [tauto|].
        intros [?|[[= ->]|?]]; tauto.
      * destruct (IH (k :: seen) group') as (seen' & Hs & ->). exists seen'. split; [|done].
        intros k'. rewrite Hs, !elem_of_cons. split.
        -- intros [[->|?]|?]; tauto.
        -- intros [?|[[= ->]|?]]; tauto.
    + destruct (IH seen group') as (seen' & Hs & ->). exists seen'. split; [|done].
      intros k'. rewrite Hs, elem_of_cons. split; [tauto|].
      intros [?|[[=]|?]]; tauto.
Qed.

Lemma keep_first_nonempty group : ∀ seen,
  Forall (λ seq : Frag, seq ≠ []) (keep_first seen group).
Proof.
  intros seen. apply Forall_forall. intros seq Hin ->.
  by destruct (keep_first_keys _ _ _ Hin) as (k & Hk & _).
Qed.

(** X1: [unique] is idempotent: a group that has been deduplicated comes
    back unchanged from a second pass. *)
Theorem unique_idempotent (group g' : Group) :
  unique group = Some g' → unique g' = Some g'.
Proof.
  intros Hu. pose proof (unique_Some_nonempty _ _ Hu) as Hne.
  rewrite (unique_is_keep_first _ Hne) in Hu. injection Hu as <-.
  rewrite unique_is_keep_first by apply keep_first_nonempty.
  by rewrite keep_first_idemp.
Qed.

Lemma unique_idempotent_witness :
  let a1 := [mkNode 1 "a.go" 10 20 0] in
  let b1 := [mkNode 1 "b.go" 10 20 0] in
  unique [a1; b1] = Some [a1; b1].
Proof.
  intros a1 b1.
  apply (unique_idempotent [a1; b1; a1] [a1; b1]). vm_compute. reflexivity.
Defined.

Lemma keep_first_fixed group : ∀ seen,
  Forall (λ seq : Frag, seq ≠ []) group →
  NoDup (frag_key <$> group) →
  (∀ k, k ∈ seen → Some k ∉ frag_key <$> group) →
  keep_first seen group = group.
Proof.
  induction group as [|seq rest IH]; intros seen Hne Hnd Hseen; simpl; [done|].
  inversion Hne as [|? ? Hseq Hrest]; subst. rewrite fmap_cons in Hnd, Hseen.
  apply NoDup_cons in Hnd as [Hnin Hnd].
  destruct seq as [|node tl]; [done|]. simpl in *.
  rewrite decide_False.
  - f_equal. apply IH; [done..|]. intros k [->|Hk]%elem_of_cons; [done|].
    intros Hin. apply (Hseen k Hk). by apply elem_of_cons; right.
  - intros Hin. apply (Hseen _ Hin). by apply elem_of_cons; left.
Qed.

(** X2: [unique] returns a group as it is exactly when every fragment has a
    first node and no two fragments start at the same position of the same
    file. *)
Theorem unique_fixed_iff (group : Group) :
  unique group = Some group ↔
  Forall (λ seq, seq ≠ []) group ∧ NoDup (frag_key <$> group).
Proof.
  split.
  - intros Hu. pose proof (unique_Some_nonempty _ _ Hu) as Hne. split; [done|].
    rewrite (unique_is_keep_first _ Hne) in Hu. injection Hu as Hu.
    rewrite <- Hu. apply keep_first_NoDup.
  - intros [Hne Hnd]. rewrite unique_is_keep_first by done. f_equal.
    apply keep_first_fixed; [done..|]. by intros k ?%elem_of_nil.
Qed.

Lemma unique_app_seen (group again : Group) :
  (∀ seq, seq ∈ again → frag_key seq ∈ frag_key <$> group) →
  unique (group ++ again) = unique group.
Proof.
  intros Hagain.
  destruct (decide (Forall (λ seq : Frag, seq ≠ []) group)) as [Hne|Hne].
  - assert (Forall (λ seq : Frag, seq ≠ []) again) as Hne'.
    { apply Forall_forall. intros seq Hin ->. apply Hagain in Hin.
      apply list_elem_of_fmap in Hin as (s & Hs & Hin). rewrite Forall_forall in Hne.
      destruct s; [by apply (Hne [])|done]. }
    rewrite !unique_is_keep_first by (by try apply Forall_app). f_equal.
    destruct (keep_first_app group [] again) as (seen' & Hseen & ->).
    rewrite (keep_first_all_seen again), app_nil_r; [done|].
    intros seq k Hin Hk. apply Hseen. right. rewrite <- Hk. by apply Hagain.
  - destruct (unique group) as [g'|] eqn:Hu; [by apply unique_Some_nonempty in Hu|].
    destruct (unique (group ++ again)) as [g'|] eqn:Hu'; [|done].
    apply unique_Some_nonempty, Forall_app in Hu' as [? _]. done.
Qed.

(** X3: fragments that start where a fragment of the group already starts
    add nothing: appending them, as when the same clone is found again at
    another threshold, leaves the result of [unique] unchanged. *)
Theorem unique_absorbs (group again : Group) :
  (∀ seq, seq ∈ again → frag_key seq ∈ frag_key <$> group) →
  unique (group ++ again) = unique group.
Proof. intros Hagain. by apply unique_app_seen. Qed.

Lemma unique_absorbs_witness :
  let a1 := [mkNode 1 "a.go" 10 20 0] in
  let b1 := [mkNode 1 "b.go" 10 20 0] in
  let a2 := [mkNode 1 "a.go" 10 30 0; mkNode 2 "a.go" 12 14 0] in
  unique ([a1; b1] ++ [a2; b1]) = unique [a1; b1].
Proof.
  intros a1 b1 a2. apply (unique_absorbs [a1; b1] [a2; b1]).
  intros seq Hin. apply elem_of_cons in Hin as [->|Hin].
  - apply elem_of_cons. by left.
  - apply list_elem_of_singleton in Hin as ->. apply elem_of_cons. right.
    apply elem_of_cons. by left.
Defined.

(** X4: the first fragment of a group is always kept, at the head of the
    result, and the result is no longer than the group; so a group that is
    not empty is never deduplicated to nothing. *)
Theorem unique_keeps_head (seq : Frag) (rest g' : Group) :
  unique (seq :: rest) = Some g' →
  ∃ rest', g' = seq :: rest' ∧ (length rest' ≤ length rest)%nat.
Proof.
  intros Hu. pose proof (unique_Some_nonempty _ _ Hu) as Hne.
  rewrite (unique_is_keep_first _ Hne) in Hu. injection Hu as <-.
  inversion Hne as [|? ? Hseq _]; subst. destruct seq as [|node tl]; [done|].
  simpl. eexists. split; [done|]. apply sublist_length, keep_first_sublist.
Qed.

Lemma unique_keeps_head_witness :
  let a1 := [mkNode 1 "a.go" 10 20 0] in
  let a2 := [mkNode 1 "a.go" 10 30 0; mkNode 2 "a.go" 12 14 0] in
  ∃ rest', [a1] = a1 :: rest' ∧ (length rest' ≤ length [a2])%nat.
Proof.
  intros a1 a2. apply (unique_keeps_head a1 [a2] [a1]). vm_compute. reflexivity.
Defined.

(** ** [printDupls] *)

Lemma foldl_foldl_concat {A B} (f : A → B → A) (ls : list (list B)) : ∀ a,
  foldl (foldl f) a ls = foldl f a (concat ls).
Proof.
  induction ls as [|l ls IH]; intros a; simpl; [done|]. by rewrite IH, foldl_app.
Qed.

Lemma add_matches_lookup ms : ∀ (acc : gmap string Group) h,
  foldl add_match acc ms !! h
  = match filter (λ m, Hash m = h) ms with
    | [] => acc !! h
    | l => Some (default [] (acc !! h) ++ concat (Frags <$> l))
    end.
Proof.
  induction ms as [|m ms IH]; intros acc h; simpl; [done|].
  rewrite IH, filter_cons. unfold add_match at 1 2.
  destruct (decide (Hash m = h)) as [<-|Hne].
  - rewrite lookup_insert_eq. simpl.
    destruct (filter _ ms) as [|m' l]; simpl; [by rewrite app_nil_r|].
    by rewrite <- app_assoc.
  - by rewrite lookup_insert_ne.
Qed.

Lemma collect_lookup_filter duplChans h :
  collect duplChans !! h
  = match filter (λ m, Hash m = h) (concat duplChans) with
    | [] => None
    | _ => Some (frags_of_hash h duplChans)
    end.
Proof.
  unfold collect, frags_of_hash. rewrite foldl_foldl_concat, add_matches_lookup.
  rewrite lookup_empty. by destruct (filter _ _).
Qed.

(** X5: the group of a hash is made of the fragments of all the matches
    with that hash, in the order in which the matches are received, channel
    after channel; a hash that no match carries has no group. *)
Theorem collect_lookup (duplChans : list (list Match)) (h : string) :
  collect duplChans !! h
  = if decide (h ∈ Hash <$> concat duplChans)
    then Some (frags_of_hash h duplChans)
    else None.
Proof.
  rewrite collect_lookup_filter.
  destruct (filter _ _) as [|m l] eqn:Hf.
  - rewrite decide_False; [done|].
    intros (m & -> & Hin)%list_elem_of_fmap.
    assert (m ∈ filter (λ m', Hash m' = Hash m) (concat duplChans)) as Hm
      by (by apply list_elem_of_filter).
    rewrite Hf in Hm. by apply elem_of_nil in Hm.
  - rewrite decide_True; [done|].
    assert (m ∈ filter (λ m', Hash m' = h) (concat duplChans)) as Hm
      by (rewrite Hf; by apply elem_of_cons; left).
    apply list_elem_of_filter in Hm as [<- Hin]. by apply list_elem_of_fmap_2.
Qed.

Section Calls.
Context `{Printer P}.

(** How the loop over the keys ends: with the footer after all keys, or
    early and without the footer, on an error of [PrintClones] or on a
    group with an empty fragment. *)
Lemma print_groups_calls groups keys : ∀ (p : P) log,
  let r := print_groups groups keys (p, log) in
  ∃ ks footer,
    ks `prefix_of` keys ∧
    r.1.2 = log ++ (CallClones <$> omap (to_print groups) ks) ++ footer ∧
    (footer = [] ∧ r.2 ≠ Nil ∨ footer = [CallFooter] ∧ ks = keys ∧ r.2 ≠ Panic) ∧
    (r.2 = Panic → ∃ k, k ∈ keys ∧ unique (default [] (groups !! k)) = None).
Proof.
  induction keys as [|k rest IH]; intros p log; simpl.
  - exists [], [CallFooter].
    destruct (PrintFooter p) as [p' [err|]]; simpl; (split; [done|]);
      (split; [done|]); (split; [by right|done]).
  - assert (∀ ks, omap (to_print groups) (k :: ks)
                  = from_option (λ g, [g]) [] (to_print groups k) ++ omap (to_print groups) ks)
      as Homap by (intros ks; simpl; by destruct (to_print groups k)).
    pose proof (eq_refl (to_print groups k)) as Hk. unfold to_print at 2 in Hk.
    destruct (unique _) as [uniq|] eqn:Hu.
    + assert (∀ (r : P * list Call * Outcome) log',
                (∃ ks footer, ks `prefix_of` rest ∧
                   r.1.2 = log' ++ (CallClones <$> omap (to_print groups) ks) ++ footer ∧
                   (footer = [] ∧ r.2 ≠ Nil ∨ footer = [CallFooter] ∧ ks = rest ∧ r.2 ≠ Panic) ∧
                   (r.2 = Panic → ∃ k', k' ∈ rest ∧ unique (default [] (groups !! k')) = None)) →
                log' = log ++ (CallClones <$> from_option (λ g, [g]) [] (to_print groups k)) →
                ∃ ks footer, ks `prefix_of` k :: rest ∧
                   r.1.2 = log ++ (CallClones <$> omap (to_print groups) ks) ++ footer ∧
                   (footer = [] ∧ r.2 ≠ Nil ∨ footer = [CallFooter] ∧ ks = k :: rest ∧ r.2 ≠ Panic) ∧
                   (r.2 = Panic → ∃ k', k' ∈ k :: rest ∧ unique (default [] (groups !! k')) = None))
        as Hstep.
      { intros r log' (ks & footer & Hks & Hlog & Hf & Hp) ->.
        exists (k :: ks), footer. split; [by apply prefix_cons|]. split; [|split].
        - rewrite Hlog, Homap, fmap_app. by rewrite <- !app_assoc.
        - destruct Hf as [?|(? & -> & ?)]; [by left|by right].
        - intros (k' & Hk' & Hu')%Hp. exists k'. split; [by apply elem_of_cons; right|done]. }
      case_decide as Hlen.
      * destruct (PrintClones uniq p) as [p' [err|]] eqn:Hpc; simpl.
        -- exists [k], []. rewrite Homap, Hk. simpl.
           split; [by apply prefix_cons, prefix_nil|]. split; [done|]. split; [by left|done].
        -- eapply Hstep; [apply IH|]. by rewrite Hk.
      * eapply Hstep; [apply IH|]. rewrite Hk. simpl. by rewrite app_nil_r.
    + exists [], []. simpl. rewrite app_nil_r.
      split; [apply prefix_nil|]. split; [done|]. split; [by left|].
      intros _. exists k. split; [by apply elem_of_cons; left|done].
Qed.

Lemma printDupls_calls o (p : P) duplChans :
  let groups := collect duplChans in
  let r := printDupls o (p, []) duplChans in
  ∃ ks footer,
    ks `prefix_of` sorted_keys o groups ∧
    r.1.2 = CallHeader :: (CallClones <$> omap (to_print groups) ks) ++ footer ∧
    (footer = [] ∧ r.2 ≠ Nil ∨
     footer = [CallFooter] ∧ ks = sorted_keys o groups ∧ r.2 ≠ Panic) ∧
    (r.2 = Panic →
     ∃ k, k ∈ sorted_keys o groups ∧ unique (default [] (groups !! k)) = None).
Proof.
  intros groups. unfold printDupls. fold groups. simpl.
  destruct (PrintHeader p) as [p' [err|]] eqn:Hh; simpl.
  - exists [], []. split; [apply prefix_nil|]. split; [done|]. split; [by left|done].
  - apply (print_groups_calls groups (sorted_keys o groups) p' [CallHeader]).
Qed.

End Calls.

Lemma elem_of_concat {A} (x : A) (ls : list (list A)) :
  x ∈ concat ls ↔ ∃ l, l ∈ ls ∧ x ∈ l.
Proof.
  induction ls as [|l ls IH]; simpl.
  - split; [by intros ?%elem_of_nil|]. by intros (l & ?%elem_of_nil & _).
  - rewrite elem_of_app, IH. split.
    + intros [Hx|(l' & Hl' & Hx)].
      * exists l. split; [by apply elem_of_cons; left|done].
      * exists l'. split; [by apply elem_of_cons; right|done].
    + intros (l' & [->|Hl']%elem_of_cons & Hx); [by left|right; eauto].
Qed.

Lemma CallFooter_not_clones (gs : list Group) : CallFooter ∉ CallClones <$> gs.
Proof. by intros (g & ? & _)%list_elem_of_fmap. Qed.

Lemma unique_None_empty group : unique group = None → [] ∈ group.
Proof.
  intros Hnone.
  destruct (decide (Forall (λ seq : Frag, seq ≠ []) group)) as [Hne|Hne].
  - by rewrite unique_is_keep_first in Hnone.
  - apply not_Forall_Exists in Hne; [|apply _].
    apply Exists_exists in Hne as (seq & Hin & Hseq).
    destruct seq; [done|]. by destruct Hseq.
Qed.

(** X6: when [printDupls] returns nil, the printer has received the header,
    then, for every key of the group map in ascending order, the
    deduplicated group if it has two fragments or more, then the footer, and
    nothing else. *)
Theorem printDupls_success_calls `{Printer P} (o : RangeOrder) (p : P)
    (duplChans : list (list Match)) :
  (printDupls o (p, []) duplChans).2 = Nil →
  (printDupls o (p, []) duplChans).1.2
  = CallHeader
    :: (CallClones <$> omap (to_print (collect duplChans))
                         (sorted_keys o (collect duplChans)))
    ++ [CallFooter].
Proof.
  intros Hnil.
  destruct (printDupls_calls o p duplChans) as (ks & footer & _ & Hlog & Hf & _).
  simpl in *. destruct Hf as [[_ Hne]|(-> & -> & _)]; [done|]. exact Hlog.
Qed.

Lemma printDupls_success_calls_witness :
  let a := [mkNode 1 "a.go" 10 20 0] in
  let b := [mkNode 1 "b.go" 10 20 0] in
  let c := [mkNode 5 "c.go" 30 50 0] in
  (printDupls (λ keys, keys) (tt, [])
     [[mkMatch "h2" [c]; mkMatch "h1" [a; b]]; [mkMatch "h1" [a]; mkMatch "h0" [b; c]]]).1.2
  = [CallHeader; CallClones [b; c]; CallClones [a; b]; CallFooter].
Proof.
  intros a b c.
  rewrite (printDupls_success_calls (λ keys, keys) tt) by (vm_compute; reflexivity).
  vm_compute. reflexivity.
Defined.

Lemma print_groups_footer `{Printer P} groups keys : ∀ (p : P) log,
  let r := print_groups groups keys (p, log) in
  CallFooter ∈ r.1.2 → CallFooter ∉ log →
  ∃ p0, r.1.1 = (PrintFooter p0).1 ∧ r.2 = from_option Error Nil (PrintFooter p0).2.
Proof.
  induction keys as [|k rest IH]; intros p log; simpl.
  - intros _ _. exists p. by destruct (PrintFooter p) as [p' [err|]].
  - destruct (unique _) as [uniq|]; [|by intros ? ?].
    assert (CallFooter ∉ log → CallFooter ∉ log ++ [CallClones uniq]) as Hsnoc.
    { intros Hlog [?|?%list_elem_of_singleton]%elem_of_app; done. }
    case_decide; [|apply IH].
    destruct (PrintClones uniq p) as [p' [err|]]; simpl.
    + intros Hin Hlog. by apply Hsnoc in Hin.
    + intros Hin Hlog. apply (IH p' (log ++ [CallClones uniq])); auto.
Qed.

(** X7: the footer is printed last and only once every key of the group
    map has been handled: if the printer has received the footer, the
    groups it has received are those of all keys, in ascending order of the
    keys, and [printDupls] returns what [PrintFooter] returned, nil or its
    error.  If the printer has not received the footer, [printDupls] has
    not returned nil; and when [printDupls] panics, no footer has been
    printed. *)
Theorem printDupls_footer_after_all `{Printer P} (o : RangeOrder) (p : P)
    (duplChans : list (list Match)) :
  let r := printDupls o (p, []) duplChans in
  (CallFooter ∈ r.1.2 →
   last r.1.2 = Some CallFooter ∧
   printed r.1.2
   = omap (to_print (collect duplChans)) (sorted_keys o (collect duplChans)) ∧
   ∃ p0, r.1.1 = (PrintFooter p0).1 ∧ r.2 = from_option Error Nil (PrintFooter p0).2) ∧
  (CallFooter ∉ r.1.2 → r.2 ≠ Nil) ∧
  (r.2 = Panic → CallFooter ∉ r.1.2).
Proof.
  intros r.
  destruct (printDupls_calls o p duplChans) as (ks & footer & _ & Hlog & Hf & _).
  fold r in Hlog, Hf. simpl in Hlog, Hf.
  assert (footer = [] → CallFooter ∉ r.1.2) as Hnone.
  { intros ->. rewrite Hlog, app_nil_r. intros [?|Hin]%elem_of_cons; [done|].
    by apply CallFooter_not_clones in Hin. }
  assert (footer = [CallFooter] → CallFooter ∈ r.1.2) as Hsome.
  { intros ->. rewrite Hlog. apply elem_of_cons. right. apply elem_of_app. right.
    by apply list_elem_of_singleton. }
  split; [|split].
  - intros Hin. destruct Hf as [[-> _]|(-> & -> & _)]; [by destruct Hnone|].
    split; [by rewrite Hlog, app_comm_cons, last_snoc|].
    split; [rewrite Hlog; apply printed_clones; by right|].
    unfold r, printDupls in *. simpl in *.
    destruct (PrintHeader p) as [p' [err|]]; simpl in *.
    + by apply list_elem_of_singleton in Hin.
    + apply (print_groups_footer _ _ p' [CallHeader]); [done|].
      by intros ?%list_elem_of_singleton.
  - intros Hnin Hnil. destruct Hf as [[_ ?]|(-> & _ & _)]; [done|]. destruct Hnin. by apply Hsome.
  - intros Hpanic. destruct Hf as [[-> _]|(_ & _ & ?)]; [by apply Hnone|done].
Qed.

Lemma printDupls_footer_after_all_witness :
  let a := [mkNode 1 "a.go" 10 20 0] in
  let b := [mkNode 1 "b.go" 10 20 0] in
  let duplChans := [[mkMatch "h1" [a; b]]; [mkMatch "h0" [b]]] in
  let r := printDupls (λ keys, keys) ([None; None; Some "boom"], []) duplChans in
  r = (([], [CallHeader; CallClones [a; b]; CallFooter]), Error "boom") ∧
  printed r.1.2 = [[a; b]].
Proof.
  intros a b duplChans r.
  assert (r = (([], [CallHeader; CallClones [a; b]; CallFooter]), Error "boom")) as Hr
    by (vm_compute; reflexivity).
  split; [exact Hr|].
  destruct (proj1 (printDupls_footer_after_all (λ keys, keys) [None; None; Some "boom"]
                     duplChans)) as (_ & Hprinted & _).
  { fold r. rewrite Hr. simpl.
    apply elem_of_cons; right. apply elem_of_cons; right. apply elem_of_cons; by left. }
  fold r in Hprinted. rewrite Hprinted. vm_compute. reflexivity.
Defined.

(** X8: [printDupls] panics only on an empty fragment: if it ends in the
    index panic of [unique], one of the matches received has a fragment
    without nodes.  With matches whose fragments all have a node it never
    panics. *)
Theorem printDupls_panic_empty_fragment `{Printer P} (o : RangeOrder) (p : P)
    (duplChans : list (list Match)) :
  (printDupls o p duplChans).2 = Panic →
  ∃ m, m ∈ concat duplChans ∧ [] ∈ Frags m.
Proof.
  intros Hpanic.
  pose proof (printDupls_recording o p [] duplChans) as Hrec. simpl in Hrec.
  destruct (printDupls_calls o p duplChans) as (_ & _ & _ & _ & _ & Hp).
  simpl in Hp. destruct Hp as (k & _ & Hu).
  { rewrite <- Hrec in Hpanic. exact Hpanic. }
  apply unique_None_empty in Hu. rewrite collect_lookup_filter in Hu.
  destruct (filter _ _) as [|m0 l] eqn:Hf; [by apply elem_of_nil in Hu|].
  simpl in Hu. unfold frags_of_hash in Hu. rewrite Hf in Hu.
  apply elem_of_concat in Hu as (frags & (m & -> & Hm)%list_elem_of_fmap & Hin).
  exists m. split; [|done].
  rewrite <- Hf in Hm. by apply list_elem_of_filter in Hm as [_ Hm].
Qed.

Lemma printDupls_panic_empty_fragment_witness :
  ∃ m, m ∈ concat [[mkMatch "h" [[mkNode 1 "a.go" 10 20 0]; []]]] ∧ [] ∈ Frags m.
Proof.
  apply (printDupls_panic_empty_fragment (λ keys, keys) tt).
  vm_compute. reflexivity.
Defined.

(** ** [findDuplicates] *)

Lemma findDuplicates_from_sublist {RawMatch} (FSU : list Node → RawMatch → Z → Match)
    o paths data threshold mchan : ∀ n,
  findDuplicates_from FSU o n paths data threshold mchan
  `sublist_of` ((λ m, FSU data m threshold) <$> mchan).
Proof.
  induction mchan as [|m rest IH]; intros n; simpl; [done|].
  destruct (emits (o n) paths _); simpl.
  - by apply sublist_skip.
  - by apply sublist_cons.
Qed.

(** X9: [findDuplicates] only filters: what it sends on [duplChan] is a
    subsequence of the matches extracted from [mchan], in the order of
    arrival, and every match sent has a fragment and covers all the paths,
    whatever the orders of iteration. *)
Theorem findDuplicates_filters {RawMatch} (FindSyntaxUnits : list Node → RawMatch → Z → Match)
    o paths data threshold mchan :
  findDuplicates FindSyntaxUnits o paths data threshold mchan
  `sublist_of` ((λ m, FindSyntaxUnits data m threshold) <$> mchan) ∧
  ∀ sent, sent ∈ findDuplicates FindSyntaxUnits o paths data threshold mchan →
    (0 < length (Frags sent))%nat ∧ covers_all paths (Frags sent) = true.
Proof.
  split; [apply findDuplicates_from_sublist|].
  intros sent Hin.
  destruct (findDuplicates_from_sent FindSyntaxUnits o paths data threshold mchan
              0%nat sent Hin) as (k & m & _ & _ & He).
  exact (emits_sound _ _ _ He).
Qed.

(** X10: a match is sent only if it has at least as many nodes as there are
    distinct paths, since a node takes at most one path out of [pathMap]. *)
Theorem emits_needs_nodes (o : nat → nat → RangeOrder) (paths : list string) (m : Match) :
  emits o paths m = true →
  (size (list_to_set paths : gset string) ≤ length (concat (Frags m)))%nat.
Proof.
  unfold emits. intros [_ Hm]%andb_true_iff. exact (matchesFiles_nodes _ _ _ Hm).
Qed.

Lemma emits_needs_nodes_witness :
  (size (list_to_set ["app"; "lib"; "app"] : gset string)
   ≤ length (concat [[mkNode 7 "app/a.go" 10 20 1]; [mkNode 7 "lib/b.go" 30 40 1]]))%nat.
Proof.
  apply (emits_needs_nodes (λ _ _ keys, keys) ["app"; "lib"; "app"]
           (mkMatch "h" [[mkNode 7 "app/a.go" 10 20 1]; [mkNode 7 "lib/b.go" 30 40 1]])).
  vm_compute. reflexivity.
Defined.

Lemma effective_paths_nonempty args : effective_paths args ≠ [].
Proof.
  unfold effective_paths. case_decide; [|done].
  destruct args; [simpl in *; lia|done].
Qed.

(** X11: the filter is never vacuous: whatever the path arguments of the
    command line, a match none of whose nodes has a file name under one of
    the paths in force is not sent. *)
Theorem emits_needs_a_path (o : nat → nat → RangeOrder) (args : list string) (m : Match) :
  (∀ root, root ∈ effective_paths args → covered (Frags m) root = false) →
  emits o (effective_paths args) m = false.
Proof.
  intros Hnone. destruct (emits o (effective_paths args) m) eqn:He; [|done].
  apply emits_sound in He as [_ Hcov].
  pose proof (effective_paths_nonempty args) as Hne.
  destruct (effective_paths args) as [|root rest]; [done|].
  simpl in Hcov. apply andb_true_iff in Hcov as [Hroot _].
  rewrite Hnone in Hroot; [done|]. by apply elem_of_cons; left.
Qed.

Lemma emits_needs_a_path_witness :
  emits (λ _ _ keys, keys) (effective_paths [])
    (mkMatch "h" [[mkNode 7 "pkg/a.go" 10 20 1]; [mkNode 7 "pkg/b.go" 30 40 1]]) = false.
Proof.
  apply emits_needs_a_path. intros root Hroot.
  apply list_elem_of_singleton in Hroot as ->. reflexivity.
Defined.

Lemma matchesFiles_no_paths o frags : matchesFiles o [] frags = true.
Proof. unfold matchesFiles. by destruct frags. Qed.

(** X12: when no file name of the match has two of the paths as prefixes,
    the order in which Go iterates over [pathMap] does not matter: the
    match is sent under one order if and only if it is sent under any
    other. *)
Theorem emits_order_independent (o o' : nat → nat → RangeOrder)
    (paths : list string) (m : Match) :
  (∀ i j, is_iteration (o i j)) → (∀ i j, is_iteration (o' i j)) →
  roots_apart paths (Frags m) →
  emits o paths m = emits o' paths m.
Proof.
  intros Ho Ho' Hap. destruct paths as [|root rest].
  - unfold emits. by rewrite !matchesFiles_no_paths.
  - destruct (emits o (root :: rest) m) eqn:He; symmetry.
    + apply emits_sound in He as [_ Hcov]. by apply emits_complete.
    + destruct (emits o' (root :: rest) m) eqn:He'; [|done].
      apply emits_sound in He' as [_ Hcov].
      rewrite emits_complete in He; done.
Qed.

Example two_roots_two_orders :
  elements (list_to_set ["app"; "lib"] : gset string)
  ≠ reverse (elements (list_to_set ["app"; "lib"] : gset string)).
Proof. vm_compute. discriminate. Qed.

Lemma emits_order_independent_witness :
  let m := mkMatch "h" [[mkNode 7 "app/a.go" 10 20 1]; [mkNode 7 "lib/b.go" 30 40 1]] in
  emits (λ _ _ keys, keys) ["app"; "lib"] m = emits (λ _ _, reverse) ["app"; "lib"] m.
Proof.
  intros m. apply emits_order_independent.
  - intros i j keys. reflexivity.
  - intros i j keys. apply reverse_Permutation.
  - intros frag node q q' Hf Hn Hq Hq' H1 H2. subst m. simpl in Hf.
    set_unfold. destruct Hf as [->|[->|[]]]; set_unfold;
      destruct Hn as [->|[]]; destruct Hq as [->|[->|[]]]; destruct Hq' as [->|[->|[]]];
      first [reflexivity | discriminate].
Defined.

(** ** What the tests on strings mean *)

Lemma string_app_nil_l (s : string) : ("" ++ s)%string = s.
Proof. reflexivity. Qed.

Lemma string_app_cons a (s t : string) : (String a s ++ t)%string = String a (s ++ t)%string.
Proof. reflexivity. Qed.

Local Ltac str_simpl := rewrite ?string_app_cons, ?string_app_nil_l in *.

Lemma string_app_nil_r (s : string) : (s ++ "")%string = s.
Proof. induction s as [|a s IH]; str_simpl; [done|by rewrite IH]. Qed.

Lemma string_app_assoc (s1 s2 s3 : string) :
  (s1 ++ (s2 ++ s3))%string = ((s1 ++ s2) ++ s3)%string.
Proof. induction s1 as [|a s1 IH]; str_simpl; [done|by rewrite IH]. Qed.

Lemma HasPrefix_spec (s p : string) :
  HasPrefix s p = true ↔ ∃ post, s = (p ++ post)%string.
Proof.
  unfold HasPrefix. revert s. induction p as [|a p IH]; intros s.
  - split; [intros _; by exists s|]. by destruct s.
  - destruct s as [|b s]; simpl.
    + split; [done|]. intros (post & Hs). by str_simpl.
    + destruct (ascii_dec a b) as [->|Hne].
      * rewrite IH. split; intros (post & Hs); exists post; str_simpl; congruence.
      * split; [done|]. intros (post & Hs). str_simpl. congruence.
Qed.

Lemma Contains_spec (s sub : string) :
  Contains s sub = true ↔ ∃ pre post, s = (pre ++ sub ++ post)%string.
Proof.
  induction s as [|a s IH].
  - change (Contains "" sub) with (HasPrefix "" sub || false).
    rewrite orb_true_iff, HasPrefix_spec. split.
    + intros [(post & Hs)|?]; [|done]. by exists "", post.
    + intros ([|b pre] & post & Hs); str_simpl; [|done]. left. by exists post.
  - change (Contains (String a s) sub)
      with (HasPrefix (String a s) sub || Contains s sub).
    rewrite orb_true_iff, HasPrefix_spec, IH. split.
    + intros [(post & Hs)|(pre & post & ->)]; [by exists "", post|].
      by exists (String a pre), post.
    + intros ([|b pre] & post & Hs); str_simpl.
      * left. by exists post.
      * right. exists pre, post. congruence.
Qed.

Lemma String_rev_app_spec (s1 s2 : string) :
  String.rev_app s1 s2 = (String.rev s1 ++ s2)%string.
Proof.
  unfold String.rev. revert s2. induction s1 as [|a s1 IH]; intros s2; simpl; [done|].
  rewrite (IH (String a s2)), (IH (String a "")). by rewrite <- string_app_assoc.
Qed.

Lemma String_rev_app (s1 s2 : string) :
  String.rev (s1 ++ s2) = (String.rev s2 ++ String.rev s1)%string.
Proof.
  induction s1 as [|a s1 IH]; str_simpl.
  - by rewrite string_app_nil_r.
  - unfold String.rev at 1 3. simpl. rewrite !String_rev_app_spec, IH.
    by rewrite string_app_assoc.
Qed.

Lemma String_rev_involutive (s : string) : String.rev (String.rev s) = s.
Proof.
  induction s as [|a s IH]; [done|].
  unfold String.rev at 2. simpl. rewrite String_rev_app_spec, String_rev_app, IH. done.
Qed.

Lemma HasSuffix_spec (s suffix : string) :
  HasSuffix s suffix = true ↔ ∃ pre, s = (pre ++ suffix)%string.
Proof.
  unfold HasSuffix. fold (HasPrefix (String.rev s) (String.rev suffix)).
  rewrite HasPrefix_spec. split.
  - intros (post & Hs). exists (String.rev post).
    rewrite <- (String_rev_involutive s), Hs, String_rev_app.
    by rewrite String_rev_involutive.
  - intros (pre & ->). exists (String.rev pre). apply String_rev_app.
Qed.

Lemma substring_all (s : string) : String.substring 0 (String.length s) s = s.
Proof. induction s as [|a s IH]; simpl; [done|by rewrite IH]. Qed.

Lemma substring_skip (p post : string) :
  String.substring (String.length p) (String.length (p ++ post) - String.length p)
    (p ++ post)
  = post.
Proof.
  induction p as [|a p IH]; str_simpl; simpl.
  - rewrite Nat.sub_0_r. apply substring_all.
  - exact IH.
Qed.

Lemma TrimPrefix_spec (s p : string) :
  (HasPrefix s p = true → s = (p ++ TrimPrefix s p)%string) ∧
  (HasPrefix s p = false → TrimPrefix s p = s).
Proof.
  unfold TrimPrefix. split; intros Hp; rewrite Hp; [|done].
  apply HasPrefix_spec in Hp as (post & ->). by rewrite substring_skip.
Qed.

(** ** [crawlPaths] *)

Lemma walkFn_cases vendor v :
  walkFn vendor v
  = if panics vendor v then ([], WalkPanic)
    else (if accepts vendor v then [visit_path v] else [], WalkNil).
Proof.
  unfold walkFn, panics, accepts, vendored.
  destruct (negb vendor && _); simpl; [done|].
  destruct (visit_info v) as [info|]; [|done].
  by destruct (negb (IsDir info) && _).
Qed.

Lemma Walk_closed vendor vs :
  Forall (λ v, panics vendor v = false) vs →
  Walk vs (walkFn vendor)
  = (visit_path <$> filter (λ v, accepts vendor v = true) vs, WalkNil).
Proof.
  induction 1 as [|v vs Hv _ IH]; [done|].
  cbn [Walk]. rewrite walkFn_cases, Hv, IH, filter_cons.
  destruct (accepts vendor v) eqn:Ha.
  - by rewrite decide_True by done.
  - by rewrite decide_False by done.
Qed.

Lemma Walk_nil_inv vendor vs :
  (Walk vs (walkFn vendor)).2 = WalkNil → Forall (λ v, panics vendor v = false) vs.
Proof.
  induction vs as [|v vs IH]; [constructor|].
  cbn [Walk]. rewrite walkFn_cases.
  destruct (panics vendor v) eqn:Hp; [done|].
  destruct (Walk vs (walkFn vendor)) as [sent r]. simpl. intros ->.
  constructor; [done|by apply IH].
Qed.

Lemma crawlPaths_cons_file fs vendor path rest info :
  Lstat fs path = inl info → IsDir info = false →
  crawlPaths fs vendor (path :: rest)
  = (path :: (crawlPaths fs vendor rest).1, (crawlPaths fs vendor rest).2).
Proof.
  intros Hl Hd. simpl. rewrite Hl, Hd. simpl. by destruct (crawlPaths fs vendor rest).
Qed.

Lemma crawlPaths_cons_dir fs vendor path rest info :
  Lstat fs path = inl info → IsDir info = true →
  Forall (λ v, panics vendor v = false) (visits fs path) →
  crawlPaths fs vendor (path :: rest)
  = ((visit_path <$> filter (λ v, accepts vendor v = true) (visits fs path))
       ++ (crawlPaths fs vendor rest).1,
     (crawlPaths fs vendor rest).2).
Proof.
  intros Hl Hd Hv. simpl. rewrite Hl, Hd, (Walk_closed _ _ Hv). simpl.
  by destruct (crawlPaths fs vendor rest).
Qed.

(** X13: the paths are crawled one after the other: when the crawl of the
    first paths closes normally, the crawl of all paths sends their files,
    then those of the other paths, and ends as the crawl of the other paths
    does; when it does not, the other paths are not looked at. *)
Theorem crawlPaths_sequential (fs : FileSystem) (vendor : bool)
    (before after : list string) :
  crawlPaths fs vendor (before ++ after)
  = if decide ((crawlPaths fs vendor before).2 = Closed)
    then ((crawlPaths fs vendor before).1 ++ (crawlPaths fs vendor after).1,
          (crawlPaths fs vendor after).2)
    else crawlPaths fs vendor before.
Proof.
  rewrite crawlPaths_app. destruct (crawlPaths fs vendor before) as [sent []]; simpl;
    [|done..].
  by destruct (crawlPaths fs vendor after).
Qed.

Lemma crawlPaths_closed_crawlable (fs : FileSystem) (vendor : bool) (paths : list string) :
  (crawlPaths fs vendor paths).2 = Closed ↔ Forall (crawlable fs vendor) paths.
Proof.
  induction paths as [|path rest IH]; [by split; [constructor|]|].
  rewrite Forall_cons, <- IH. unfold crawlable. simpl.
  destruct (Lstat fs path) as [info|err] eqn:Hl.
  - destruct (IsDir info) eqn:Hd; simpl.
    + destruct (Walk _ _) as [sent r] eqn:Hw.
      assert (r = (Walk (visits fs path) (walkFn vendor)).2) as Hr by (by rewrite Hw).
      destruct r.
      * symmetry in Hr. apply Walk_nil_inv in Hr.
        destruct (crawlPaths fs vendor rest) as [sent' e]. simpl. split.
        -- intros ->. split; [exists info; eauto|done].
        -- by intros [_ ->].
      * simpl. split; [done|]. intros [(info' & [= <-] & Hv) _].
        rewrite (Walk_closed _ _ (Hv Hd)) in Hw. by injection Hw.
      * simpl. split; [done|]. intros [(info' & [= <-] & Hv) _].
        rewrite (Walk_closed _ _ (Hv Hd)) in Hw. by injection Hw.
    + destruct (crawlPaths fs vendor rest) as [sent' e]. simpl. split.
      * intros ->. split; [|done]. exists info. split; [done|]. intros ?. congruence.
      * by intros [_ ->].
  - simpl. split; [done|]. by intros [(info & ? & _) _].
Qed.

(** X14: the crawl closes the channel normally exactly when [os.Lstat]
    succeeds on every given path and no visit of a walk hands the walk
    function a nil file info outside a skipped vendor directory. *)
Theorem crawlPaths_closed_iff (fs : FileSystem) (vendor : bool) (paths : list string) :
  (crawlPaths fs vendor paths).2 = Closed ↔ Forall (crawlable fs vendor) paths.
Proof. apply crawlPaths_closed_crawlable. Qed.

(** X15: a given path that is not a directory is sent as it is, whatever
    its extension and even inside a vendor directory, provided the crawl
    of the paths before it closes normally. *)
Theorem crawlPaths_sends_given_file (fs : FileSystem) (vendor : bool)
    (before after : list string) (path : string) (info : FileInfo) :
  Lstat fs path = inl info → IsDir info = false →
  (crawlPaths fs vendor before).2 = Closed →
  path ∈ (crawlPaths fs vendor (before ++ path :: after)).1.
Proof.
  intros Hl Hd Hclosed. rewrite crawlPaths_app.
  destruct (crawlPaths fs vendor before) as [sent e]. simpl in Hclosed. subst e.
  rewrite (crawlPaths_cons_file _ _ _ _ _ Hl Hd).
  simpl. apply elem_of_app. right. by apply elem_of_cons; left.
Qed.

Lemma crawlPaths_sends_given_file_witness :
  let fs := mkFileSystem (λ path, inl (mkFileInfo false path)) (λ _, []) in
  "vendor/x/notes.txt" ∈ (crawlPaths fs false (["a.go"] ++ "vendor/x/notes.txt" :: [])).1.
Proof.
  intros fs.
  apply (crawlPaths_sends_given_file fs false ["a.go"] [] "vendor/x/notes.txt"
           (mkFileInfo false "vendor/x/notes.txt")); reflexivity.
Defined.

Lemma accepts_spec vendor v :
  accepts vendor v = true ↔
  (∃ info base, visit_info v = Some info ∧ IsDir info = false ∧
                Name info = (base ++ ".go")%string) ∧
  (vendor = false →
   (∀ post, visit_path v ≠ ("vendor/" ++ post)%string) ∧
   (∀ pre post, visit_path v ≠ (pre ++ "/vendor/" ++ post)%string)).
Proof.
  unfold accepts. rewrite andb_true_iff, negb_true_iff, andb_false_iff, negb_false_iff.
  assert (vendored (visit_path v) = false ↔
          (∀ post, visit_path v ≠ ("vendor/" ++ post)%string) ∧
          (∀ pre post, visit_path v ≠ (pre ++ "/vendor/" ++ post)%string)) as Hv.
  { unfold vendored. rewrite orb_false_iff.
    change vendorDirPrefix with "vendor/". change vendorDirInPath with "/vendor/".
    rewrite <- !not_true_iff_false, HasPrefix_spec, Contains_spec. split.
    - intros [Hp Hc]. split; [intros post ?|intros pre post ?]; [apply Hp|apply Hc]; eauto.
    - intros [Hp Hc]. split; [intros (post & ?)|intros (pre & post & ?)];
        [by eapply Hp|by eapply Hc]. }
  rewrite Hv. clear Hv.
  assert (match visit_info v with
          | Some info => negb (IsDir info) && HasSuffix (Name info) ".go"
          | None => false
          end = true ↔
          ∃ info base, visit_info v = Some info ∧ IsDir info = false ∧
                       Name info = (base ++ ".go")%string) as Hi.
  { destruct (visit_info v) as [info|].
    - rewrite andb_true_iff, negb_true_iff, HasSuffix_spec. split.
      + intros [Hd (base & Hn)]. eauto.
      + intros (info' & base & [= <-] & Hd & Hn). eauto.
    - split; [done|]. by intros (? & ? & ? & _). }
  rewrite Hi. clear Hi. destruct vendor; split.
  - intros [_ ?]. done.
  - intros [? _]. split; [by left|done].
  - intros [[?|Hv] ?]; [done|]. split; [done|]. by intros _.
  - intros [? Hv]. split; [right; by apply Hv|done].
Qed.

(** X16: of a given directory the crawl sends, in the order of the walk,
    the paths of the visits that the walk function accepts: the entry is
    not a directory, its name ends in [.go] and, unless [-vendor] is set,
    its path neither starts with [vendor/] nor contains [/vendor/]. *)
Theorem crawlPaths_directory (fs : FileSystem) (vendor : bool) (path : string)
    (info : FileInfo) :
  Lstat fs path = inl info → IsDir info = true →
  Forall (λ v, panics vendor v = false) (visits fs path) →
  crawlPaths fs vendor [path]
  = (visit_path <$> filter (λ v, accepts vendor v = true) (visits fs path), Closed) ∧
  ∀ v, accepts vendor v = true ↔
       (∃ i base, visit_info v = Some i ∧ IsDir i = false ∧
                  Name i = (base ++ ".go")%string) ∧
       (vendor = false →
        (∀ post, visit_path v ≠ ("vendor/" ++ post)%string) ∧
        (∀ pre post, visit_path v ≠ (pre ++ "/vendor/" ++ post)%string)).
Proof.
  intros Hl Hd Hv. split; [|apply accepts_spec].
  rewrite (crawlPaths_cons_dir _ _ _ _ _ Hl Hd Hv). simpl. by rewrite app_nil_r.
Qed.

Lemma crawlPaths_directory_witness :
  let fs := mkFileSystem
    (λ path, inl (mkFileInfo true path))
    (λ _, [mkVisit "pkg" (Some (mkFileInfo true "pkg")) None;
           mkVisit "pkg/a.go" (Some (mkFileInfo false "a.go")) None;
           mkVisit "pkg/README" (Some (mkFileInfo false "README")) None;
           mkVisit "pkg/vendor/x/b.go" (Some (mkFileInfo false "b.go")) None;
           mkVisit "pkg/vendor/gone" None (Some "lstat pkg/vendor/gone: no such file")]) in
  crawlPaths fs false ["pkg"] = (["pkg/a.go"], Closed).
Proof.
  intros fs.
  rewrite (proj1 (crawlPaths_directory fs false "pkg" (mkFileInfo true "pkg")
                    eq_refl eq_refl ltac:(repeat constructor))).
  reflexivity.
Defined.

Lemma filter_sublist_impl {A} (P Q : A → Prop) `{∀ x, Decision (P x)} `{∀ x, Decision (Q x)}
    (l : list A) :
  (∀ x, P x → Q x) → filter P l `sublist_of` filter Q l.
Proof.
  intros HPQ. induction l as [|x l IH]; [done|].
  rewrite !filter_cons. destruct (decide (P x)) as [HP|HP].
  - rewrite decide_True by auto. by apply sublist_skip.
  - destruct (decide (Q x)); [by apply sublist_cons|done].
Qed.

Lemma panics_vendor v : panics false v = true → panics true v = true.
Proof. unfold panics. simpl. by intros [_ ?]%andb_true_iff. Qed.

Lemma accepts_vendor v : accepts false v = true → accepts true v = true.
Proof. unfold accepts. simpl. by intros [_ ?]%andb_true_iff. Qed.

(** X17: skipping the vendor directories only removes files: when the crawl
    with [-vendor] closes normally, so does the crawl without it, and the
    files it sends are among those sent with [-vendor], in the same
    order. *)
Theorem crawlPaths_vendor_monotone (fs : FileSystem) (paths : list string) :
  (crawlPaths fs true paths).2 = Closed →
  (crawlPaths fs false paths).2 = Closed ∧
  (crawlPaths fs false paths).1 `sublist_of` (crawlPaths fs true paths).1.
Proof.
  induction paths as [|path rest IH]; [done|].
  intros Hclosed. pose proof Hclosed as Hall.
  apply crawlPaths_closed_crawlable, Forall_cons in Hall as [(info & Hl & Hv) Hrest].
  apply crawlPaths_closed_crawlable in Hrest. destruct (IH Hrest) as [IH1 IH2].
  destruct (IsDir info) eqn:Hd.
  - specialize (Hv eq_refl).
    assert (Forall (λ v, panics false v = false) (visits fs path)) as Hv'.
    { eapply Forall_impl; [exact Hv|]. intros v Hp. simpl in Hp.
      destruct (panics false v) eqn:Hp'; [|done]. apply panics_vendor in Hp'. congruence. }
    rewrite (crawlPaths_cons_dir _ _ _ _ _ Hl Hd Hv).
    rewrite (crawlPaths_cons_dir _ _ _ _ _ Hl Hd Hv'). simpl. split; [done|].
    apply sublist_app; [|done]. apply fmap_sublist, filter_sublist_impl.
    intros v. apply accepts_vendor.
  - rewrite !(crawlPaths_cons_file _ _ _ _ _ Hl Hd). simpl. split; [done|].
    by apply sublist_skip.
Qed.

Lemma crawlPaths_vendor_monotone_witness :
  let fs := mkFileSystem
    (λ path, inl (mkFileInfo true path))
    (λ _, [mkVisit "vendor/x/b.go" (Some (mkFileInfo false "b.go")) None;
           mkVisit "a.go" (Some (mkFileInfo false "a.go")) None]) in
  (crawlPaths fs false ["."]).1 `sublist_of` ["vendor/x/b.go"; "a.go"].
Proof.
  intros fs. exact (proj2 (crawlPaths_vendor_monotone fs ["."] eq_refl)).
Defined.

(** ** [filesFeed] *)

(** X18: under [-files] the feed does not touch the file system and always
    ends by closing the channel: it sends one name for each token that the
    scanner returns, in order, which is the token without one leading [./]
    if it has one, and the token itself otherwise; neither the extension
    nor the vendor directories are looked at.  (The tokens are the lines of
    the standard input as [bufio.Scanner] cuts them, up to the end of the
    input or to the scanner's first error.) *)
Theorem feed_stdin (fs : FileSystem) (fl : Flags) (paths tokens : list string) :
  files fl = true →
  feed fs fl paths tokens = (stdin_names tokens, Closed) ∧
  length (stdin_names tokens) = length tokens ∧
  ∀ i token, tokens !! i = Some token →
    ∃ name, stdin_names tokens !! i = Some name ∧
            (token = ("./" ++ name)%string ∨ name = token ∧ HasPrefix token "./" = false).
Proof.
  intros Hfiles. unfold feed. rewrite Hfiles. split; [done|].
  unfold stdin_names. split; [apply length_fmap|].
  intros i token Hi. exists (TrimPrefix token "./").
  rewrite list_lookup_fmap, Hi. split; [done|].
  destruct (TrimPrefix_spec token "./") as [Hyes Hno].
  destruct (HasPrefix token "./") eqn:Hp; [left; by apply Hyes|right; by split; [apply Hno|]].
Qed.

Lemma feed_stdin_witness :
  let fs := mkFileSystem (λ _, inr "unreachable") (λ _, []) in
  feed fs (mkFlags false false 15 15 true false false []) ["."]
    ["./cmd/main.go"; "vendor/x/notes.txt"; "././a.go"]
  = (["cmd/main.go"; "vendor/x/notes.txt"; "./a.go"], Closed).
Proof.
  intros fs.
  rewrite (proj1 (feed_stdin fs (mkFlags false false 15 15 true false false []) ["."]
                    ["./cmd/main.go"; "vendor/x/notes.txt"; "././a.go"] eq_refl)).
  reflexivity.
Defined.

(** ** [main] *)

Lemma app_eq_app_not_in {A} (l r l1 l2 : list A) (x : A) :
  l ++ r = l1 ++ x :: l2 → x ∉ l → ∃ l', l1 = l ++ l'.
Proof.
  revert l1. induction l as [|y l IH]; intros l1 Heq Hnin; [by exists l1|].
  destruct l1 as [|z l1]; simplify_eq/=.
  - destruct Hnin. by apply elem_of_cons; left.
  - destruct (IH l1) as (l' & ->); [done| |by exists l'].
    intros Hin. apply Hnin. by apply elem_of_cons; right.
Qed.

Lemma FindDuplOver_not_in_build fl i : FindDuplOver i ∉ build_events fl.
Proof. unfold build_events, if_verbose. destruct (verbose fl); set_solver. Qed.

(** X19: [main] queries the tree only once it is finished: every call of
    [FindDuplOver] comes after the files were handed to the parser, the
    builder was started and has signalled [done], and the sentinel was fed
    to the tree. *)
Theorem main_queries_after_build (fs : FileSystem) (tokens : list string)
    (fl : Flags) (perr : option string) (fuel : nat)
    (before after : list Event) (i : Z) :
  (main fs tokens fl perr fuel).1 = before ++ FindDuplOver i :: after →
  ∃ rest, before = build_events fl ++ rest ∧
          BuildTree ∈ before ∧ Done ∈ before ∧ Update sentinel ∈ before.
Proof.
  intros Hmain.
  assert (∃ evs, (main fs tokens fl perr fuel).1 = build_events fl ++ evs)
    as (evs & Hevs).
  { assert (FindDuplOver i ∈ (main fs tokens fl perr fuel).1) as Hin
      by (rewrite Hmain; apply elem_of_app; right; by apply elem_of_cons; left).
    destruct (html fl && plumbing fl) eqn:Hout.
    - unfold main in Hin. rewrite Hout in Hin. simpl in Hin.
      by apply list_elem_of_singleton in Hin.
    - destruct (feed fs fl (effective_paths (Args fl)) tokens).2 eqn:Hfed.
      + rewrite main_closed by done.
        destruct (threshold_loop _ _ _) as [evs [chans|]]; simpl; eauto.
      + unfold main in Hin. rewrite Hout, Hfed in Hin. simpl in Hin.
        unfold start_events, if_verbose in Hin. destruct (verbose fl); set_solver.
      + unfold main in Hin. rewrite Hout, Hfed in Hin. simpl in Hin.
        unfold start_events, if_verbose in Hin. destruct (verbose fl); set_solver. }
  rewrite Hevs in Hmain.
  destruct (app_eq_app_not_in _ _ _ _ _ Hmain (FindDuplOver_not_in_build fl i))
    as (rest & ->).
  exists rest. split; [done|].
  assert (∀ ev, ev ∈ [BuildTree; Done; Update sentinel] → ev ∈ build_events fl ++ rest)
    as Hin.
  { intros ev Hev. apply elem_of_app. left. unfold build_events.
    apply elem_of_app. right. apply elem_of_app. left.
    apply elem_of_cons. by right. }
  repeat split; apply Hin; set_solver.
Qed.

Lemma main_queries_after_build_witness :
  ∃ rest,
    [Parse (CrawlPaths ["."]); BuildTree; Done; Update sentinel; NewPrinter Text]
    = build_events initial_flags ++ rest ∧
    BuildTree ∈ [Parse (CrawlPaths ["."]); BuildTree; Done; Update sentinel; NewPrinter Text] ∧
    Done ∈ [Parse (CrawlPaths ["."]); BuildTree; Done; Update sentinel; NewPrinter Text] ∧
    Update sentinel
      ∈ [Parse (CrawlPaths ["."]); BuildTree; Done; Update sentinel; NewPrinter Text].
Proof.
  apply (main_queries_after_build empty_tree [] initial_flags None 2 _
           [GoFindDuplicates 15; PrintDupls [15]] 15).
  reflexivity.
Defined.

Lemma without_log_app evs evs' :
  without_log (evs ++ evs') = without_log evs ++ without_log evs'.
Proof. unfold without_log. apply List.filter_app. Qed.

Lemma without_log_build fl :
  without_log (build_events fl)
  = [Parse (filesFeed fl (effective_paths (Args fl))); BuildTree; Done; Update sentinel;
     NewPrinter (printer_kind fl)].
Proof. unfold build_events, if_verbose. by destruct (verbose fl). Qed.

(** X20: [-verbose] only adds lines to the log: with the flag set or not,
    [main] does the same things in the same order and ends the same way. *)
Theorem main_verbose_only_logs (fs : FileSystem) (tokens : list string)
    (fl : Flags) (b : bool) (perr : option string) (fuel : nat) :
  let fl' := mkFlags (vendor fl) b (fromThreshold fl) (toThreshold fl)
               (files fl) (html fl) (plumbing fl) (Args fl) in
  without_log (main fs tokens fl' perr fuel).1 = without_log (main fs tokens fl perr fuel).1 ∧
  (main fs tokens fl' perr fuel).2 = (main fs tokens fl perr fuel).2.
Proof.
  intros fl'. unfold main. simpl.
  destruct (html fl && plumbing fl); [done|].
  assert (without_log (build_events fl') = without_log (build_events fl)) as Hbuild
    by (by rewrite !without_log_build).
  assert (without_log (start_events fl') = without_log (start_events fl)) as Hstart
    by (unfold start_events, if_verbose; simpl; by destruct b, (verbose fl)).
  change (feed fs fl' (effective_paths (Args fl)) tokens)
    with (feed fs fl (effective_paths (Args fl)) tokens).
  destruct (feed fs fl (effective_paths (Args fl)) tokens).2; simpl;
    [|by rewrite !without_log_app, Hstart..].
  destruct (threshold_loop _ _ _) as [evs [chans|]]; simpl.
  - destruct (print_events perr chans) as [pevs exit]. simpl.
    by rewrite !without_log_app, Hbuild.
  - by rewrite !without_log_app, Hbuild.
Qed.

(** X21: [-t] is an alias of [-from-threshold] only: it sets the upper
    threshold and leaves the lower one at its default of 15.  So [-t n]
    with [n < 15] queries no threshold at all, and with [n >= 15] it
    queries every threshold from [n] down to 15. *)
Theorem threshold_alias_sets_upper_bound (n : Z) (perr : option string) :
  is_int n →
  ∃ fl,
    set_flag "t" (IntValue n) initial_flags = Some fl ∧
    set_flag "from-threshold" (IntValue n) initial_flags = Some fl ∧
    fromThreshold fl = n ∧ toThreshold fl = 15 ∧
    (n < 15 → ∀ fs tokens fuel,
       (feed fs fl (effective_paths (Args fl)) tokens).2 = Closed →
       main fs tokens fl perr fuel
       = (build_events fl ++ (print_events perr []).1, (print_events perr []).2)) ∧
    (15 ≤ n → ∀ fs tokens fuel, (Z.to_nat (n - 14) < fuel)%nat →
       (feed fs fl (effective_paths (Args fl)) tokens).2 = Closed →
       main fs tokens fl perr fuel
       = (build_events fl ++ query_events (descending n 15)
            ++ (print_events perr (descending n 15)).1,
          (print_events perr (descending n 15)).2)).
Proof.
  intros Hn. eexists. split; [reflexivity|]. split; [reflexivity|].
  split; [done|]. split; [done|]. split.
  - intros Hlt fs tokens fuel Hfed. rewrite main_closed by done. simpl.
    by rewrite threshold_loop_empty by (unfold defaultThreshold; lia).
  - intros Hge fs tokens fuel Hfuel Hfed. rewrite main_closed by done. simpl.
    rewrite (threshold_loop_exit defaultThreshold (Z.to_nat (n - 14)) n fuel);
      [done|done| | | |done];
      unfold is_int, int_min, int_max, defaultThreshold; lia.
Qed.

Lemma threshold_alias_sets_upper_bound_witness :
  ∃ fl, set_flag "t" (IntValue 10) initial_flags = Some fl ∧
        main empty_tree [] fl None 0
        = ([Parse (CrawlPaths ["."]); BuildTree; Done; Update sentinel; NewPrinter Text;
            PrintDupls []], Returned).
Proof.
  assert (is_int 10) as H10 by (unfold is_int, int_min, int_max; lia).
  destruct (threshold_alias_sets_upper_bound 10 None H10)
    as (fl & Hset & _ & _ & _ & Hlow & _).
  exists fl. split; [exact Hset|].
  injection Hset as <-.
  rewrite (Hlow ltac:(lia) empty_tree [] 0%nat eq_refl). reflexivity.
Defined.

(** ** A match received again *)

Lemma print_groups_ext `{Printer P} (groups groups' : gmap string Group) keys : ∀ p : P,
  (∀ k, k ∈ keys →
     unique (default [] (groups !! k)) = unique (default [] (groups' !! k))) →
  print_groups groups keys p = print_groups groups' keys p.
Proof.
  induction keys as [|k rest IH]; intros p Hext; simpl; [done|].
  rewrite <- (Hext k) by (by apply elem_of_cons; left).
  assert (∀ p', print_groups groups rest p' = print_groups groups' rest p') as Hrest.
  { intros p'. apply IH. intros k' Hk'. apply Hext. by apply elem_of_cons; right. }
  destruct (unique _) as [uniq|]; [|done].
  case_decide; [|apply Hrest].
  destruct (PrintClones uniq p) as [p' [err|]]; [done|apply Hrest].
Qed.

Lemma collect_snoc duplChans m :
  collect (duplChans ++ [[m]]) = add_match (collect duplChans) m.
Proof. unfold collect. by rewrite foldl_app. Qed.

(** X22: a match that [printDupls] has already received changes nothing
    when it is received again on a later channel, as when the same clone is
    reported at a second threshold: the printer gets the same calls and
    [printDupls] returns the same result. *)
Theorem printDupls_repeated_match `{Printer P} (o : RangeOrder) (p : P)
    (duplChans : list (list Match)) (m : Match) :
  m ∈ concat duplChans →
  printDupls o p (duplChans ++ [[m]]) = printDupls o p duplChans.
Proof.
  intros Hm. unfold printDupls. rewrite collect_snoc.
  set (groups := collect duplChans).
  assert (groups !! Hash m = Some (frags_of_hash (Hash m) duplChans)) as Hold.
  { unfold groups. rewrite collect_lookup_filter.
    destruct (filter _ _) as [|m0 l] eqn:Hf; [|done].
    assert (m ∈ filter (λ m', Hash m' = Hash m) (concat duplChans)) as Hin
      by (by apply list_elem_of_filter).
    rewrite Hf in Hin. by apply elem_of_nil in Hin. }
  assert (sorted_keys o (add_match groups m) = sorted_keys o groups) as ->.
  { unfold sorted_keys, add_match. rewrite dom_insert_L.
    replace ({[Hash m]} ∪ dom groups) with (dom groups); [done|].
    assert (Hash m ∈ dom groups) by (apply elem_of_dom; eauto). set_solver. }
  destruct (PrintHeader p) as [p' [err|]]; [done|].
  apply print_groups_ext. intros k _. unfold add_match.
  destruct (decide (k = Hash m)) as [->|Hne]; [|by rewrite lookup_insert_ne].
  rewrite lookup_insert_eq, Hold. simpl. apply unique_app_seen.
  intros seq Hseq. apply list_elem_of_fmap_2. unfold frags_of_hash.
  apply elem_of_concat. exists (Frags m). split; [|done].
  apply list_elem_of_fmap_2. by apply list_elem_of_filter.
Qed.

Lemma printDupls_repeated_match_witness :
  let a := [mkNode 1 "a.go" 10 20 0] in
  let b := [mkNode 1 "b.go" 10 20 0] in
  printDupls (λ keys, keys) (tt, []) ([[mkMatch "h1" [a; b]]] ++ [[mkMatch "h1" [a; b]]])
  = ((tt, [CallHeader; CallClones [a; b]; CallFooter]), Nil).
Proof.
  intros a b.
  rewrite (printDupls_repeated_match (λ keys, keys) (tt, []) [[mkMatch "h1" [a; b]]]
             (mkMatch "h1" [a; b])).
  - vm_compute. reflexivity.
  - apply elem_of_cons. by left.
Defined.
